(** * Precur: a browser time log (src/src/App.jsx)

    A shallow embedding of the persistence adapter, the entry form, the
    application controller and the two aggregation views of [App.jsx],
    followed by the properties of the specification that were checked
    against it.

    Modelling conventions.
    - A JavaScript number is [NaN] or an integer [Num z].  The program only
      produces numbers through [parseInt], [*], [+], [Math.floor (_ / 60)]
      and [% 60], so every finite value is integer valued.  [Num z] stands
      for the double of value [z], and the operations are written as the
      exact ones on integers.  They are the operations of the language as
      long as arguments and results are at most 2^53 in magnitude; beyond
      that the language rounds to the nearest double (and overflows to an
      infinity), which the model does not follow.  A property that depends
      on the value of a sum, a product, a quotient or a parsed numeral is
      therefore stated under [exact_range] or an explicit bound on the
      values, and says nothing outside it.  Negative zero is identified with
      zero: the program never tells them apart.  A number is printed in
      plain decimal digits (which is what the language does below 10^21).
    - A string is its sequence of bytes; the white space skipped by
      [parseInt] is the ASCII white space.
    - A [Date] is its time value (milliseconds since the epoch).  The local
      calendar fields depend on the host time zone, so [getFullYear] and
      [getMonth] are section variables; [UTC] gives one concrete choice.
    - A plain object used as a dictionary is an association list in
      property-creation order, with [Object_keys] implementing the
      enumeration order of the language.
    - The IndexedDB object store is a finite map from keys to records plus
      its key generator and the history of the requests it served.  The
      handlers are modelled over an opened store ([initDB] is modelled on
      its own), and the asynchronous calls of a handler run to completion
      in program order.
    - The month and year rollover effect touches nothing but its two state
      cells and the console; it is modelled on its own, outside [World].
    - [formatDate] depends on the locale data of the host and is left
      out, as are markup and styling. *)

From Stdlib Require Import Ascii.
From stdpp Require Import gmap strings list fin_maps sorting pretty.

Local Open Scope Z_scope.

(** ** JavaScript numbers *)

Inductive number : Type :=
  | NaN
  | Num (z : Z).

Global Instance number_eq_dec : EqDecision number.
Proof. solve_decision. Defined.

(** [a + b] *)
Definition num_add (a b : number) : number :=
  match a, b with
  | Num x, Num y => Num (x + y)
  | _, _ => NaN
  end.

(** [a * b] *)
Definition num_mul (a b : number) : number :=
  match a, b with
  | Num x, Num y => Num (x * y)
  | _, _ => NaN
  end.

(** [Math.floor(a / 60)] *)
Definition floor_div60 (a : number) : number :=
  match a with
  | Num x => Num (x / 60)
  | NaN => NaN
  end.

(** [a % 60]: the remainder takes the sign of the dividend. *)
Definition rem60 (a : number) : number :=
  match a with
  | Num x => Num (Z.rem x 60)
  | NaN => NaN
  end.

(** [ToString] on numbers. *)
Definition num_to_string (a : number) : string :=
  match a with
  | Num x => pretty x
  | NaN => "NaN"
  end.

(** A value read from a property that may be missing ([undefined]). *)
Definition to_number (v : option number) : number :=
  match v with
  | Some a => a
  | None => NaN
  end.

(** [!v] for [v] a number or [undefined]. *)
Definition falsy (v : option number) : bool :=
  match v with
  | None => true
  | Some NaN => true
  | Some (Num z) => bool_decide (z = 0)
  end.

(** ** [parseInt(s, 10)] *)

Definition is_white_space (c : ascii) : bool :=
  let n := N_of_ascii c in
  ((9 <=? n) && (n <=? 13) || (n =? 32))%N.

Fixpoint trim_start (s : string) : string :=
  match s with
  | String c r => if is_white_space c then trim_start r else s
  | EmptyString => EmptyString
  end.

Definition digit_value (c : ascii) : option Z :=
  let n := Z.of_N (N_of_ascii c) in
  if (48 <=? n) && (n <=? 57) then Some (n - 48) else None.

(** Value of the longest prefix of decimal digits, read left to right. *)
Fixpoint parse_digits (acc : Z) (s : string) : Z :=
  match s with
  | String c r =>
      match digit_value c with
      | Some d => parse_digits (acc * 10 + d) r
      | None => acc
      end
  | EmptyString => acc
  end.

Definition parse_unsigned (sign : Z) (s : string) : number :=
  match s with
  | String c _ =>
      match digit_value c with
      | Some _ => Num (sign * parse_digits 0 s)
      | None => NaN
      end
  | EmptyString => NaN
  end.

Definition parseInt (s : string) : number :=
  match trim_start s with
  | String "-" r => parse_unsigned (-1) r
  | String "+" r => parse_unsigned 1 r
  | t => parse_unsigned 1 t
  end.

(** ** Plain objects used as dictionaries *)

Definition JSObject : Type := list (string * number).

Fixpoint obj_get (o : JSObject) (k : string) : option number :=
  match o with
  | [] => None
  | (k', v) :: o' => if decide (k' = k) then Some v else obj_get o' k
  end.

(** [o[k] = v]: an existing property keeps its position, a new one is
    created last. *)
Fixpoint obj_set (o : JSObject) (k : string) (v : number) : JSObject :=
  match o with
  | [] => [(k, v)]
  | (k', v') :: o' =>
      if decide (k' = k) then (k, v) :: o' else (k', v') :: obj_set o' k v
  end.

(** A property name is an array index when it is the canonical decimal
    form of an integer in [0, 2^32 - 2]. *)
Definition array_index (k : string) : option Z :=
  let n := parse_digits 0 k in
  if decide (pretty n = k ∧ 0 <= n < 2 ^ 32 - 1) then Some n else None.

(** [Object.keys(o)]: array indices in ascending numeric order, then the
    other names in creation order. *)
Definition Object_keys (o : JSObject) : list string :=
  (pretty <$> merge_sort Z.le (omap array_index o.*1))
  ++ filter (λ k, array_index k = None) o.*1.

(** ** Dates *)

Definition Date : Type := Z.

(** The calendar fields in a host whose local time is UTC. *)
Module UTC.

Definition msPerDay : Z := 86400000.

(** Proleptic Gregorian (year, month in 1..12) of a day number counted
    from 1970-01-01. *)
Definition civil_from_days (days : Z) : Z * Z :=
  let z := days + 719468 in
  let era := z / 146097 in
  let doe := z - era * 146097 in
  let yoe := (doe - doe / 1460 + doe / 36524 - doe / 146096) / 365 in
  let doy := doe - (365 * yoe + yoe / 4 - yoe / 100) in
  let mp := (5 * doy + 2) / 153 in
  let m := if mp <? 10 then mp + 3 else mp - 9 in
  let y := yoe + era * 400 in
  (if m <=? 2 then y + 1 else y, m).

Definition getFullYear (d : Date) : Z := (civil_from_days (d / msPerDay)).1.

Definition getMonth (d : Date) : Z := (civil_from_days (d / msPerDay)).2 - 1.

End UTC.

(** ** Entries *)

(** The object built by the form: no [id] yet. *)
Module NewEntry.

Record t : Type := mk { hours : number; minutes : number; createdAt : Date }.

End NewEntry.

(** A record of the store: the key path [id] is always present. *)
Module Entry.

Record t : Type :=
  mk { id : Z; hours : number; minutes : number; createdAt : Date }.

End Entry.

Global Instance NewEntry_eq_dec : EqDecision NewEntry.t.
Proof. solve_decision. Defined.

Global Instance Entry_eq_dec : EqDecision Entry.t.
Proof. solve_decision. Defined.

(** [entry.id = k] on an object coming from the form. *)
Definition with_id (k : Z) (entry : NewEntry.t) : Entry.t :=
  Entry.mk k (NewEntry.hours entry) (NewEntry.minutes entry)
    (NewEntry.createdAt entry).

(** ** The object store [entries] (key path [id], auto-increment) *)

Module IDB.

Inductive request : Type :=
  | Add (entry : NewEntry.t)
  | GetAll
  | Delete (key : Z)
  | Put (entry : Entry.t).

Record ObjectStore : Type :=
  mk { records : gmap Z Entry.t; keyGenerator : Z; served : list request }.

(** A freshly created store: the generator starts at 1. *)
Definition created : ObjectStore := mk ∅ 1 [].

Definition key_le (p q : Z * Entry.t) : Prop := p.1 <= q.1.

Global Instance key_le_dec p q : Decision (key_le p q).
Proof. unfold key_le. apply _. Defined.

(** The records in ascending key order. *)
Definition sorted_records (s : ObjectStore) : list (Z * Entry.t) :=
  merge_sort key_le (map_to_list (records s)).

(** [add(entry)] without a key: the generator supplies it and the key is
    written into the stored value at the key path. *)
Definition add (entry : NewEntry.t) (s : ObjectStore) : ObjectStore * Z :=
  let key := keyGenerator s in
  (mk (<[key := with_id key entry]> (records s)) (key + 1)
      (served s ++ [Add entry]),
   key).

(** [getAll()] *)
Definition getAll (s : ObjectStore) : ObjectStore * list Entry.t :=
  (mk (records s) (keyGenerator s) (served s ++ [GetAll]),
   (sorted_records s).*2).

(** [delete(key)]: succeeds whether or not the key is present. *)
Definition delete (key : Z) (s : ObjectStore) : ObjectStore :=
  mk (base.delete key (records s)) (keyGenerator s) (served s ++ [Delete key]).

(** [put(entry)] with an in-line key: insert or overwrite; an explicit key
    at or above the generator moves the generator past it. *)
Definition put (entry : Entry.t) (s : ObjectStore) : ObjectStore :=
  mk (<[Entry.id entry := entry]> (records s))
     (if decide (keyGenerator s <= Entry.id entry)
      then Entry.id entry + 1 else keyGenerator s)
     (served s ++ [Put entry]).

(** Every record sits under its own [id], below the generator. *)
Definition wf (s : ObjectStore) : Prop :=
  ∀ k e, records s !! k = Some e → Entry.id e = k ∧ k < keyGenerator s.

End IDB.

(** ** The persistence adapter *)

Definition addEntry (entry : NewEntry.t) (db : IDB.ObjectStore)
    : IDB.ObjectStore * Z :=
  IDB.add entry db.

Definition getEntries (db : IDB.ObjectStore) : IDB.ObjectStore * list Entry.t :=
  IDB.getAll db.

Definition deleteEntry (id : Z) (db : IDB.ObjectStore) : IDB.ObjectStore :=
  IDB.delete id db.

Definition updateEntry (entry : Entry.t) (db : IDB.ObjectStore) : IDB.ObjectStore :=
  IDB.put entry db.

(** ** The entry form *)

Module TimeForm.

(** An input cell holds the text typed by the user, or the number it was
    initialised with. *)
Inductive field : Type :=
  | Text (s : string)
  | Number (n : number).

Definition to_string (f : field) : string :=
  match f with
  | Text s => s
  | Number n => num_to_string n
  end.

Record state : Type := mk { hours : field; minutes : field }.

(** [useState(currentEntry ? currentEntry.hours : '')] and the same for
    minutes. *)
Definition init (currentEntry : option Entry.t) : state :=
  match currentEntry with
  | Some e => mk (Number (Entry.hours e)) (Number (Entry.minutes e))
  | None => mk (Text "") (Text "")
  end.

Definition setHours (v : string) (f : state) : state := mk (Text v) (minutes f).

Definition setMinutes (v : string) (f : state) : state := mk (hours f) (Text v).

(** The object literal of [handleSubmit]. *)
Definition entry_of (now : Date) (f : state) : NewEntry.t :=
  NewEntry.mk (parseInt (to_string (hours f))) (parseInt (to_string (minutes f)))
    now.

(** [handleSubmit]: [now] is the clock reading of [new Date()], [onSubmit]
    the callback acting on the state [W] of the parent component. *)
Definition handleSubmit {W : Type} (onSubmit : NewEntry.t → W → W)
    (now : Date) (f : state) (w : W) : state * W :=
  let entry := entry_of now f in
  let w := onSubmit entry w in
  let f := setHours "" f in
  let f := setMinutes "" f in
  (f, w).

End TimeForm.

(** ** The application controller *)

Record AppState : Type :=
  mk_app { entries : list Entry.t; editingEntry : option Entry.t }.

Record World : Type := mk_world { db : IDB.ObjectStore; app : AppState }.

Definition setEntries (l : list Entry.t) (a : AppState) : AppState :=
  mk_app l (editingEntry a).

Definition setEditingEntry (e : option Entry.t) (a : AppState) : AppState :=
  mk_app (entries a) e.

Definition loadEntries (w : World) : World :=
  let (db', l) := getEntries (db w) in
  mk_world db' (setEntries l (app w)).

(** The component as mounted: empty list, nothing being edited, then the
    first effect loads the stored entries. *)
Definition mount (db0 : IDB.ObjectStore) : World :=
  loadEntries (mk_world db0 (mk_app [] None)).

Definition handleAddEntry (entry : NewEntry.t) (w : World) : World :=
  match editingEntry (app w) with
  | Some e =>
      let entry' := with_id (Entry.id e) entry in
      let db' := updateEntry entry' (db w) in
      loadEntries (mk_world db' (setEditingEntry None (app w)))
  | None =>
      let db' := (addEntry entry (db w)).1 in
      loadEntries (mk_world db' (app w))
  end.

Definition handleEditEntry (entry : Entry.t) (w : World) : World :=
  mk_world (db w) (setEditingEntry (Some entry) (app w)).

Definition handleDeleteEntry (id : Z) (w : World) : World :=
  let db' := deleteEntry id (db w) in
  loadEntries (mk_world db' (app w)).

(** Submitting the form that [App] renders: its callback is
    [handleAddEntry]. *)
Definition submit (now : Date) (f : TimeForm.state) (w : World)
    : TimeForm.state * World :=
  TimeForm.handleSubmit handleAddEntry now f w.

(** ** Aggregation views *)

(** [entry.hours * 60 + entry.minutes] *)
Definition entry_minutes (entry : Entry.t) : number :=
  num_add (num_mul (Entry.hours entry) (Num 60)) (Entry.minutes entry).

(** The body of both [forEach] loops:
    [if (!totals[key]) totals[key] = 0; totals[key] += amount]. *)
Definition add_to_bucket (totals : JSObject) (key : string) (amount : number)
    : JSObject :=
  let totals1 :=
    if falsy (obj_get totals key) then obj_set totals key (Num 0) else totals in
  obj_set totals1 key (num_add (to_number (obj_get totals1 key)) amount).

(** One rendered [<li key=...>{key}: {totalHours}:{minutesLeft}</li>]. *)
Record li : Type :=
  mk_li { li_key : string; totalHours : number; minutesLeft : number }.

Definition li_text (r : li) : string :=
  li_key r +:+ ": " +:+ num_to_string (totalHours r) +:+ ":"
    +:+ num_to_string (minutesLeft r).

(** [Object.keys(totals).map(key => ...)] *)
Definition render (totals : JSObject) : list li :=
  (λ key,
     let totalMinutes := to_number (obj_get totals key) in
     let totalHours := floor_div60 totalMinutes in
     let minutesLeft := rem60 totalMinutes in
     mk_li key totalHours minutesLeft)
  <$> Object_keys totals.

Section Aggregation.

Variable getFullYear : Date → Z.
Variable getMonth : Date → Z.

Definition monthKey (entry : Entry.t) : string :=
  pretty (getFullYear (Entry.createdAt entry)) +:+ "-"
    +:+ pretty (getMonth (Entry.createdAt entry) + 1).

(** The year is used as a property name, hence converted to a string. *)
Definition yearKey (entry : Entry.t) : string :=
  pretty (getFullYear (Entry.createdAt entry)).

Definition totalsByMonth (entries : list Entry.t) : JSObject :=
  fold_left
    (λ totals entry, add_to_bucket totals (monthKey entry) (entry_minutes entry))
    entries [].

Definition totalsByYear (entries : list Entry.t) : JSObject :=
  fold_left
    (λ totals entry, add_to_bucket totals (yearKey entry) (entry_minutes entry))
    entries [].

Definition getTotalTimeByMonth (entries : list Entry.t) : list li :=
  render (totalsByMonth entries).

Definition getTotalTimeByYear (entries : list Entry.t) : list li :=
  render (totalsByYear entries).

End Aggregation.

(** ** Notions used to state the properties *)

(** Keys in the order of their first occurrence. *)
Fixpoint first_seen `{EqDecision A} (l : list A) : list A :=
  match l with
  | [] => []
  | k :: l' => k :: filter (λ k', k' ≠ k) (first_seen l')
  end.

(** The sum of a list of numbers, as the language computes it. *)
Definition num_sum (l : list number) : number := foldr num_add (Num 0) l.

(** Both duration fields hold integers. *)
Definition int_entry (entry : Entry.t) : Prop :=
  Entry.hours entry ≠ NaN ∧ Entry.minutes entry ≠ NaN.

Global Instance int_entry_dec entry : Decision (int_entry entry).
Proof. unfold int_entry. apply _. Defined.

(** What one loop iteration does to the bucket it hits. *)
Definition bump (b : option number) (amount : number) : option number :=
  Some (num_add (if falsy b then Num 0 else to_number b) amount).

(** The loop of both views, for any way of deriving the key. *)
Definition accumulate (keyOf : Entry.t → string) (o : JSObject)
    (entries : list Entry.t) : JSObject :=
  fold_left
    (λ totals entry, add_to_bucket totals (keyOf entry) (entry_minutes entry))
    entries o.

(** The entries that fall in bucket [k], in list order. *)
Definition group (keyOf : Entry.t → string) (k : string)
    (entries : list Entry.t) : list Entry.t :=
  filter (λ entry, keyOf entry = k) entries.

Definition is_digit (c : ascii) : bool :=
  match digit_value c with Some _ => true | None => false end.

(** The numbers that [String] prints without an exponent. *)
Definition prints_plain (a : number) : Prop :=
  match a with
  | Num z => Z.abs z < 10 ^ 21
  | NaN => True
  end.

Fixpoint all_digits (s : string) : bool :=
  match s with
  | String c r => is_digit c && all_digits r
  | EmptyString => true
  end.

(** *** The range in which numbers are exact

    Every integer up to 2^53 in magnitude is a double, and on arguments
    and results within that range [parseInt], [*], [+],
    [Math.floor (_ / 60)], [%] and [String] are exact.  The properties
    that depend on arithmetic are stated for that range. *)

Definition magnitude (a : number) : Z :=
  match a with
  | Num z => Z.abs z
  | NaN => 0
  end.

(** A bound on every value computed from one entry: [hours * 60] and
    [hours * 60 + minutes]. *)
Definition entry_magnitude (entry : Entry.t) : Z :=
  magnitude (Entry.hours entry) * 60 + magnitude (Entry.minutes entry).

(** A bound on every sum of durations of entries of the list, in any
    order and over any part of it. *)
Definition total_magnitude (entries : list Entry.t) : Z :=
  foldr (λ entry s, entry_magnitude entry + s) 0 entries.

Definition exact_range (entries : list Entry.t) : Prop :=
  total_magnitude entries <= 2 ^ 53.

(** *** Numerals

    What a cell must contain for [parseInt (_, 10)] to read an integer:
    white space, an optional sign, at least one digit, and then anything
    that does not start with a digit. *)

Inductive sign : Type := NoSign | Plus | Minus.

Definition sign_text (s : sign) : string :=
  match s with
  | NoSign => ""
  | Plus => "+"
  | Minus => "-"
  end.

Definition sign_factor (s : sign) : Z :=
  match s with
  | Minus => -1
  | _ => 1
  end.

Record numeral : Type :=
  mk_numeral { blank : string; sgn : sign; digits : string; rest : string }.

Definition numeral_text (n : numeral) : string :=
  blank n +:+ sign_text (sgn n) +:+ digits n +:+ rest n.

Fixpoint all_white_space (s : string) : bool :=
  match s with
  | String c r => is_white_space c && all_white_space r
  | EmptyString => true
  end.

Definition no_digit_first (s : string) : bool :=
  match s with
  | String c _ => negb (is_digit c)
  | EmptyString => true
  end.

Definition numeral_ok (n : numeral) : bool :=
  all_white_space (blank n)
  && match digits n with EmptyString => false | String _ _ => true end
  && all_digits (digits n)
  && no_digit_first (rest n).

(** The value of a string of digits in base 10: each digit counts for
    itself times the power of ten of its position. *)
Fixpoint base10 (s : string) : Z :=
  match s with
  | String c r =>
      (Z.of_N (N_of_ascii c) - 48) * 10 ^ Z.of_nat (String.length r) + base10 r
  | EmptyString => 0
  end.

Definition numeral_value (n : numeral) : Z :=
  sign_factor (sgn n) * base10 (digits n).

(** The cell contains the integer [z]: it was initialised with the number
    [z], or its text is a numeral of value [z]. *)
Definition holds (cell : TimeForm.field) (z : Z) : Prop :=
  match cell with
  | TimeForm.Number a => a = Num z
  | TimeForm.Text s =>
      ∃ n, numeral_ok n = true ∧ s = numeral_text n ∧ z = numeral_value n
  end.

(** ** Sample data *)

(** 2024-03-15T00:00:00Z and 2025-01-01T00:00:00Z *)
Definition march15_2024 : Date := 1710460800000.

Definition jan1_2025 : Date := 1735689600000.

(** Three well-formed entries, two of them in March 2024. *)
Definition sample_entries : list Entry.t :=
  [ Entry.mk 1 (Num 1) (Num 75) march15_2024;
    Entry.mk 2 (Num 0) (Num 30) (march15_2024 + 3600000);
    Entry.mk 3 (Num 2) (Num 0) jan1_2025 ].

(** What the form submits when [.5e1] is typed in the hours cell: the text
    is a valid value of a number input (it denotes 5), but [parseInt] stops
    at the leading dot. *)
Definition unread_entry : Entry.t :=
  with_id 1
    (TimeForm.entry_of march15_2024 (TimeForm.mk (TimeForm.Text ".5e1") (TimeForm.Text "0"))).

Definition five_minutes : Entry.t :=
  with_id 2
    (TimeForm.entry_of march15_2024 (TimeForm.mk (TimeForm.Text "0") (TimeForm.Text "5"))).

(** A session: mount on a fresh database, log 1:00 on 2024-03-15, then
    start editing that entry. *)
Definition one_entry_world : World :=
  (submit march15_2024 (TimeForm.mk (TimeForm.Text "1") (TimeForm.Text "0"))
     (mount IDB.created)).2.

Definition first_entry : Entry.t := Entry.mk 1 (Num 1) (Num 0) march15_2024.

Definition editing_world : World := handleEditEntry first_entry one_entry_world.

Definition two_and_a_half : TimeForm.state :=
  TimeForm.mk (TimeForm.Text "2") (TimeForm.Text "30").

(** A date in December of the year -2. *)
Definition long_ago : Date := -62200000000000.

(** Entries of the years -2, 2025 and 2024, in that order. *)
Definition mixed_years : list Entry.t :=
  [ Entry.mk 1 (Num 0) (Num 10) long_ago;
    Entry.mk 2 (Num 0) (Num 20) jan1_2025;
    Entry.mk 3 (Num 0) (Num 30) march15_2024 ].

(** One hour owed and thirty minutes: a negative total of -30 minutes. *)
Definition minus_thirty : Entry.t := Entry.mk 1 (Num (-1)) (Num 30) march15_2024.

(** ** The entry list *)

Module TimeList.

(** One rendered [<li key={entry.id}>]: the text [{hours}:{minutes}], the
    creation date (its [es-ES] formatting is left to the host) and the
    argument that the [Eliminar] button hands to [onDelete]. *)
Record row : Type :=
  mk { key : Z; text : string; createdAt : Date; button : Z }.

(** [entries.map(entry => ...)]; nothing in a row calls [onEdit]. *)
Definition rows (entries : list Entry.t) : list row :=
  (λ entry,
     mk (Entry.id entry)
        (num_to_string (Entry.hours entry) +:+ ":"
           +:+ num_to_string (Entry.minutes entry))
        (Entry.createdAt entry)
        (Entry.id entry))
  <$> entries.

End TimeList.

(** ** The page: what the user can do *)

Module Page.

(** The form and the controller behind it. *)
Record state : Type := mk { form : TimeForm.state; world : World }.

(** Typing in one of the two cells, pressing [Guardar] at a clock reading,
    pressing [Eliminar] on the row at a position of the list. *)
Inductive event : Type :=
  | ChangeHours (v : string)
  | ChangeMinutes (v : string)
  | SubmitForm (now : Date)
  | ClickDelete (n : nat).

Definition step (ev : event) (p : state) : state :=
  match ev with
  | ChangeHours v => mk (TimeForm.setHours v (form p)) (world p)
  | ChangeMinutes v => mk (TimeForm.setMinutes v (form p)) (world p)
  | SubmitForm now =>
      let (f, w) := submit now (form p) (world p) in mk f w
  | ClickDelete n =>
      match TimeList.rows (entries (app (world p))) !! n with
      | Some r => mk (form p) (handleDeleteEntry (TimeList.button r) (world p))
      | None => p
      end
  end.

(** First render over a database: nothing is being edited, so the form
    starts empty, and the mount effect loads the entries. *)
Definition start (db0 : IDB.ObjectStore) : state :=
  mk (TimeForm.init None) (mount db0).

Definition run (evs : list event) (p : state) : state :=
  fold_left (λ q ev, step ev q) evs p.

(** Filling both cells and saving. *)
Definition log_time (x : string * string * Date) : list event :=
  [ChangeHours x.1.1; ChangeMinutes x.1.2; SubmitForm x.2].

End Page.

(** ** The month and year rollover effect *)

Record Calendar : Type := mk_calendar { currentMonth : Z; currentYear : Z }.

Section Rollover.

Variable getFullYear : Date → Z.
Variable getMonth : Date → Z.

(** [useState(new Date().getMonth())] and [useState(new Date().getFullYear())] *)
Definition initial_calendar (now : Date) : Calendar :=
  mk_calendar (getMonth now) (getFullYear now).

(** One run of the effect at clock reading [now], in a render whose state
    is [c]; the second component is the console. *)
Definition rollover_effect (now : Date) (c : Calendar) (console : list string)
    : Calendar * list string :=
  let month := getMonth now in
  let year := getFullYear now in
  let (m', console1) :=
    if decide (month ≠ currentMonth c)
    then (month, console ++ ["Reiniciando contador mensual"])
    else (currentMonth c, console) in
  let (y', console2) :=
    if decide (year ≠ currentYear c)
    then (year, console1 ++ ["Reiniciando contador anual"])
    else (currentYear c, console1) in
  (mk_calendar m' y', console2).

End Rollover.

(** ** Opening the database *)

Definition DB_NAME : string := "timeEntriesDB".

Definition STORE_NAME : string := "entries".

(** A database of the origin: its version (0 when it does not exist yet)
    and its object stores by name. *)
Record Database : Type :=
  mk_database { version : Z; objectStores : gmap string IDB.ObjectStore }.

Definition no_database : Database := mk_database 0 ∅.

(** The [upgrade] callback of [initDB]. *)
Definition upgrade (stores : gmap string IDB.ObjectStore)
    : gmap string IDB.ObjectStore :=
  if decide (is_Some (stores !! STORE_NAME)) then stores
  else <[STORE_NAME := IDB.created]> stores.

(** [openDB(DB_NAME, 1, {upgrade})]: an older database is upgraded to
    version 1, a database at version 1 is opened as it is, a newer one
    refuses to open. *)
Definition initDB (d : Database) : option Database :=
  if decide (version d < 1) then Some (mk_database 1 (upgrade (objectStores d)))
  else if decide (version d = 1) then Some d
  else None.

(** * Supporting lemmas *)

(** ** Facts about dictionaries *)

Lemma obj_get_set (o : JSObject) k v k' :
  obj_get (obj_set o k v) k' = if decide (k = k') then Some v else obj_get o k'.
Proof.
  induction o as [|[k0 v0] o IH]; simpl.
  - repeat case_decide; congruence.
  - repeat (case_decide; simpl); congruence.
Qed.

Lemma obj_set_keys (o : JSObject) k v :
  (obj_set o k v).*1 = if decide (k ∈ o.*1) then o.*1 else o.*1 ++ [k].
Proof.
  induction o as [|[k0 v0] o IH]; simpl.
  - destruct (decide (k ∈ [])) as [H|_]; [by apply elem_of_nil in H | done].
  - destruct (decide (k0 = k)) as [->|Hne]; rewrite ?fmap_cons; simpl fst.
    + rewrite decide_True; [done | left].
    + rewrite IH. destruct (decide (k ∈ o.*1)) as [Hin|Hin].
      * rewrite decide_True; [done | by right].
      * rewrite decide_False; [done |].
        intros [?|?]%elem_of_cons; [congruence | done].
Qed.

Lemma obj_get_None (o : JSObject) k : obj_get o k = None ↔ k ∉ o.*1.
Proof.
  induction o as [|[k0 v0] o IH]; simpl.
  - split; [intros _; apply not_elem_of_nil | done].
  - rewrite not_elem_of_cons.
    destruct (decide (k0 = k)) as [->|Hne]; [intuition congruence|].
    rewrite IH. intuition congruence.
Qed.

Lemma obj_get_is_Some (o : JSObject) k : is_Some (obj_get o k) ↔ k ∈ o.*1.
Proof.
  rewrite <-not_eq_None_Some, obj_get_None.
  destruct (decide (k ∈ o.*1)); tauto.
Qed.

Lemma add_to_bucket_get (o : JSObject) k a k' :
  obj_get (add_to_bucket o k a) k'
  = if decide (k = k') then bump (obj_get o k) a else obj_get o k'.
Proof.
  unfold add_to_bucket, bump. rewrite obj_get_set.
  case_decide as Hk; [subst k'|].
  - destruct (falsy (obj_get o k)); [|done].
    by rewrite obj_get_set, decide_True.
  - destruct (falsy (obj_get o k)); [|done].
    by rewrite obj_get_set, decide_False.
Qed.

Lemma add_to_bucket_nil k a : add_to_bucket [] k a = [(k, num_add (Num 0) a)].
Proof. unfold add_to_bucket. cbn. by destruct (decide (k = k)). Qed.

Lemma add_to_bucket_single k v a :
  add_to_bucket [(k, v)] k a
  = [(k, num_add (if falsy (Some v) then Num 0 else v) a)].
Proof.
  assert (∀ u w, obj_set [(k, u)] k w = [(k, w)]) as Hset
    by (intros; cbn; by destruct (decide (k = k))).
  assert (∀ u, obj_get [(k, u)] k = Some u) as Hget
    by (intros; cbn; by destruct (decide (k = k))).
  unfold add_to_bucket. rewrite Hget.
  destruct (falsy (Some v)); by rewrite ?Hset, ?Hget, ?Hset.
Qed.

Lemma add_to_bucket_keys (o : JSObject) k a :
  (add_to_bucket o k a).*1 = if decide (k ∈ o.*1) then o.*1 else o.*1 ++ [k].
Proof.
  unfold add_to_bucket. rewrite obj_set_keys.
  destruct (falsy (obj_get o k)); [|done].
  rewrite obj_set_keys.
  destruct (decide (k ∈ o.*1)) as [Hin|Hin].
  - by rewrite decide_True.
  - rewrite decide_True; [done|]. apply elem_of_app; right; left.
Qed.

(** *** Sums of integer amounts *)

Lemma num_add_comm a b : num_add a b = num_add b a.
Proof. destruct a, b; simpl; f_equal; lia. Qed.

Lemma num_add_assoc a b c : num_add a (num_add b c) = num_add (num_add a b) c.
Proof. destruct a, b, c; simpl; f_equal; lia. Qed.

Lemma num_sum_perm l l' : l ≡ₚ l' → num_sum l = num_sum l'.
Proof.
  induction 1 as [|x l l' _ IH|x y l|l1 l2 l3 _ IH1 _ IH2]; simpl.
  - done.
  - by rewrite IH.
  - by rewrite !num_add_assoc, (num_add_comm y x).
  - congruence.
Qed.

Lemma num_sum_Num (xs : list Z) : num_sum (Num <$> xs) = Num (foldr Z.add 0 xs).
Proof.
  induction xs as [|x xs IH]; [done|].
  rewrite fmap_cons. unfold num_sum in *. cbn [foldr]. by rewrite IH.
Qed.

Lemma not_NaN_Num (l : list number) :
  Forall (λ a, a ≠ NaN) l → ∃ xs : list Z, l = Num <$> xs.
Proof.
  induction 1 as [|a l Ha _ [xs ->]]; [by exists []|].
  destruct a as [|x]; [done|]. by exists (x :: xs).
Qed.

Lemma entry_minutes_int entry : int_entry entry → entry_minutes entry ≠ NaN.
Proof.
  unfold int_entry, entry_minutes.
  destruct (Entry.hours entry), (Entry.minutes entry); intros [? ?]; simpl; congruence.
Qed.

(** Starting from a missing or integer bucket, integer amounts add up. *)
Lemma fold_bump_Num (xs : list Z) : ∀ (b : option number) (z0 : Z),
  b = None ∧ z0 = 0 ∨ b = Some (Num z0) →
  xs ≠ [] →
  fold_left bump (Num <$> xs) b = Some (Num (z0 + foldr Z.add 0 xs)).
Proof.
  induction xs as [|x xs IH]; intros b z0 Hb Hne; [done|].
  assert (bump b (Num x) = Some (Num (z0 + x))) as Hstep.
  { unfold bump. destruct Hb as [[-> ->]| ->]; simpl; [done|].
    case_bool_decide; simpl; [subst z0|]; done. }
  rewrite fmap_cons. cbn [fold_left foldr]. rewrite Hstep.
  destruct xs as [|x' xs]; [simpl; do 2 f_equal; lia|].
  rewrite (IH _ (z0 + x)) by (done || by right).
  do 2 f_equal. simpl. lia.
Qed.

(** ** The aggregation loop, one bucket at a time *)

Section Buckets.

Variable keyOf : Entry.t → string.

Lemma accumulate_get entries : ∀ o k,
  obj_get (accumulate keyOf o entries) k
  = fold_left bump (entry_minutes <$> group keyOf k entries) (obj_get o k).
Proof.
  induction entries as [|e es IH]; intros o k; [done|].
  unfold accumulate, group in *. cbn [fold_left]. rewrite IH.
  rewrite add_to_bucket_get, filter_cons.
  by destruct (decide (keyOf e = k)) as [->|Hne].
Qed.

Lemma accumulate_keys entries : ∀ o,
  (accumulate keyOf o entries).*1
  = o.*1 ++ filter (λ k, k ∉ o.*1) (first_seen (keyOf <$> entries)).
Proof.
  induction entries as [|e es IH]; intros o.
  { simpl. by rewrite filter_nil, app_nil_r. }
  unfold accumulate in *. cbn [fold_left]. rewrite IH, add_to_bucket_keys.
  rewrite fmap_cons. cbn [first_seen]. rewrite filter_cons.
  destruct (decide (keyOf e ∈ o.*1)) as [Hin|Hin].
  - rewrite decide_False by tauto. f_equal.
    rewrite list_filter_filter. apply list_filter_iff.
    intros k. split; [|tauto]. intros Hk; split; [done|]. by intros ->.
  - rewrite decide_True by done. rewrite <-app_assoc. f_equal. simpl. f_equal.
    rewrite list_filter_filter. apply list_filter_iff.
    intros k. rewrite elem_of_app, list_elem_of_singleton. tauto.
Qed.

(** With integer amounts every bucket holds the sum of its group. *)
Lemma accumulate_sum entries k :
  Forall int_entry entries →
  obj_get (accumulate keyOf [] entries) k
  = if decide (k ∈ keyOf <$> entries)
    then Some (num_sum (entry_minutes <$> group keyOf k entries))
    else None.
Proof.
  intros Hint. rewrite accumulate_get. simpl obj_get.
  assert (Forall (λ a, a ≠ NaN) (entry_minutes <$> group keyOf k entries)) as Hnum.
  { apply Forall_fmap, Forall_forall. intros e [_ He]%list_elem_of_filter.
    apply entry_minutes_int. by eapply Forall_forall in Hint. }
  apply not_NaN_Num in Hnum as [xs Hxs]. rewrite Hxs, num_sum_Num.
  destruct (decide (k ∈ keyOf <$> entries)) as [Hin|Hin].
  - apply list_elem_of_fmap in Hin as (e & -> & He).
    assert (e ∈ group keyOf (keyOf e) entries) as Hg by by apply list_elem_of_filter.
    destruct xs as [|x xs].
    { destruct (group keyOf (keyOf e) entries); [by apply elem_of_nil in Hg | done]. }
    by rewrite (fold_bump_Num (x :: xs) None 0) by auto.
  - destruct xs as [|x xs]; [done|]. exfalso.
    assert (∃ e, e ∈ group keyOf k entries) as [e [He Hin']%list_elem_of_filter].
    { destruct (group keyOf k entries) as [|e l]; [done|]. exists e. left. }
    apply Hin, list_elem_of_fmap. eauto.
Qed.

Lemma accumulate_sum_Z entries k :
  Forall int_entry entries →
  k ∈ keyOf <$> entries →
  ∃ zs : list Z,
    entry_minutes <$> group keyOf k entries = Num <$> zs
    ∧ obj_get (accumulate keyOf [] entries) k = Some (Num (foldr Z.add 0 zs)).
Proof.
  intros Hint Hin. rewrite accumulate_sum, decide_True by done.
  assert (Forall (λ a, a ≠ NaN) (entry_minutes <$> group keyOf k entries)) as Hnum.
  { apply Forall_fmap, Forall_forall. intros e [_ He]%list_elem_of_filter.
    apply entry_minutes_int. by eapply Forall_forall in Hint. }
  apply not_NaN_Num in Hnum as [zs Hzs]. exists zs.
  by rewrite Hzs, num_sum_Num.
Qed.

Lemma accumulate_perm entries entries' k :
  entries ≡ₚ entries' →
  Forall int_entry entries →
  obj_get (accumulate keyOf [] entries) k = obj_get (accumulate keyOf [] entries') k.
Proof.
  intros Hp Hint. rewrite !accumulate_sum by (done || by rewrite <-Hp).
  assert (group keyOf k entries ≡ₚ group keyOf k entries') as Hg by (unfold group; by rewrite Hp).
  rewrite (num_sum_perm _ (entry_minutes <$> group keyOf k entries')) by by rewrite Hg.
  apply decide_ext. by rewrite Hp.
Qed.
End Buckets.

(** ** Decimal strings *)

Lemma digit_value_pretty_char (d : N) :
  (d < 10)%N → digit_value (pretty_N_char d) = Some (Z.of_N d).
Proof.
  intros Hd.
  assert (d = 0 ∨ d = 1 ∨ d = 2 ∨ d = 3 ∨ d = 4 ∨ d = 5 ∨ d = 6 ∨ d = 7
          ∨ d = 8 ∨ d = 9)%N as Hcases by lia.
  repeat (destruct Hcases as [->|Hcases]; [done|]). by subst d.
Qed.

Lemma parse_digits_pretty_N_go (x : N) :
  ∃ p : Z, ∀ acc s,
    parse_digits acc (pretty_N_go x s) = parse_digits (acc * p + Z.of_N x) s.
Proof.
  induction (N.lt_wf_0 x) as [x _ IH].
  destruct (decide (x = 0%N)) as [->|Hx].
  { exists 1. intros acc s. rewrite pretty_N_go_0. f_equal. lia. }
  destruct (IH (x `div` 10)%N) as [p Hp]; [apply N.div_lt; lia|].
  exists (p * 10). intros acc s.
  rewrite pretty_N_go_step, Hp by lia. cbn [parse_digits].
  rewrite digit_value_pretty_char by (apply N.mod_lt; lia).
  f_equal. pose proof (N.div_mod x 10). lia.
Qed.

Lemma all_digits_pretty_N_go (x : N) : ∀ s,
  all_digits (pretty_N_go x s) = all_digits s.
Proof.
  induction (N.lt_wf_0 x) as [x _ IH]; intros s.
  destruct (decide (x = 0%N)) as [->|Hx]; [by rewrite pretty_N_go_0|].
  rewrite pretty_N_go_step, IH by (try apply N.div_lt; lia).
  cbn [all_digits]. unfold is_digit.
  by rewrite digit_value_pretty_char by (apply N.mod_lt; lia).
Qed.

Lemma pretty_nonneg_cases (y : Z) :
  0 <= y → pretty y = "0" ∧ y = 0 ∨ pretty y = pretty_N_go (Z.to_N y) "" ∧ 0 < y.
Proof.
  destruct y as [|q|q]; [by left| |lia]. intros _. right. split; [|lia].
  unfold pretty at 1, pretty_Z, pretty, pretty_positive, pretty, pretty_N.
  by rewrite decide_False.
Qed.

Lemma parse_digits_pretty (y : Z) : 0 <= y → parse_digits 0 (pretty y) = y.
Proof.
  intros [[-> ->]|[-> Hy]]%pretty_nonneg_cases; [done|].
  destruct (parse_digits_pretty_N_go (Z.to_N y)) as [p ->]. simpl. lia.
Qed.

Lemma all_digits_pretty (y : Z) : 0 <= y → all_digits (pretty y) = true.
Proof.
  intros [[-> ->]|[-> Hy]]%pretty_nonneg_cases; [done|].
  by rewrite all_digits_pretty_N_go.
Qed.

Lemma all_digits_app (s t : string) :
  all_digits (s +:+ t) = all_digits s && all_digits t.
Proof. induction s as [|c s IH]; simpl; [done|]. by rewrite IH, andb_assoc. Qed.

Lemma array_index_pretty (y : Z) :
  0 <= y < 2 ^ 32 - 1 → array_index (pretty y) = Some y.
Proof.
  intros Hy. unfold array_index. rewrite parse_digits_pretty by lia.
  by rewrite decide_True.
Qed.

Lemma array_index_Some (k : string) (n : Z) :
  array_index k = Some n → pretty n = k ∧ 0 <= n < 2 ^ 32 - 1.
Proof. unfold array_index. case_decide; [|done]. by intros [= <-]. Qed.

Lemma array_index_dash (a b : string) : array_index (a +:+ "-" +:+ b) = None.
Proof.
  destruct (array_index _) as [n|] eqn:Hn; [|done].
  apply array_index_Some in Hn as [Hk Hn].
  apply (f_equal all_digits) in Hk.
  rewrite all_digits_pretty, all_digits_app in Hk by lia.
  by rewrite andb_false_r in Hk.
Qed.

(** ** Enumeration order *)

Example first_seen_sample :
  first_seen ["b"; "a"; "b"; "c"; "a"] = ["b"; "a"; "c"].
Proof. reflexivity. Qed.

Lemma filter_not_elem_of_nil `{EqDecision A} (l : list A) : filter (λ x, x ∉ []) l = l.
Proof.
  induction l as [|x l IH]; [done|].
  rewrite filter_cons_True, IH; [done|apply not_elem_of_nil].
Qed.

Lemma omap_cons {A B} (f : A → option B) (x : A) (l : list A) :
  omap f (x :: l)
  = match f x with Some y => y :: omap f l | None => omap f l end.
Proof. done. Qed.

Lemma Object_keys_names (o : JSObject) :
  Forall (λ k, array_index k = None) o.*1 → Object_keys o = o.*1.
Proof.
  intros Hall. unfold Object_keys.
  assert (omap array_index o.*1 = []) as ->.
  { induction Hall as [|k l Hk _ IH]; [done|]. by rewrite omap_cons, Hk. }
  simpl. induction Hall as [|k l Hk _ IH]; [done|].
  by rewrite filter_cons_True, IH.
Qed.

Lemma Object_keys_indices (o : JSObject) (ys : list Z) :
  o.*1 = pretty <$> ys →
  Forall (λ y, 0 <= y < 2 ^ 32 - 1) ys →
  Object_keys o = pretty <$> merge_sort Z.le ys.
Proof.
  intros Ho Hall. unfold Object_keys. rewrite Ho.
  assert (omap array_index (pretty <$> ys) = ys
          ∧ filter (λ k, array_index k = None) (pretty <$> ys) = []) as [-> ->].
  { clear Ho. induction Hall as [|y l Hy _ [IH1 IH2]]; [done|].
    rewrite fmap_cons, filter_cons_False by (by rewrite array_index_pretty).
    split; [|done]. by rewrite omap_cons, array_index_pretty, IH1. }
  by rewrite app_nil_r.
Qed.

Lemma Object_keys_elem_of (o : JSObject) (k : string) :
  k ∈ Object_keys o ↔ k ∈ o.*1.
Proof.
  unfold Object_keys.
  rewrite elem_of_app, list_elem_of_fmap, list_elem_of_filter.
  setoid_rewrite merge_sort_Permutation. setoid_rewrite list_elem_of_omap.
  split.
  - intros [(n & -> & k' & Hk' & [<- _]%array_index_Some)|[_ ?]]; done.
  - intros Hk. destruct (array_index k) as [n|] eqn:Hn; [left|by right].
    exists n. split; [by apply array_index_Some in Hn as [-> _]|eauto].
Qed.

Section first_seen.

Context `{EqDecision A}.
Implicit Types l : list A.

Lemma first_seen_elem_of l x : x ∈ first_seen l ↔ x ∈ l.
Proof.
  induction l as [|y l IH]; [done|]. cbn [first_seen].
  rewrite !elem_of_cons, list_elem_of_filter, IH.
  destruct (decide (x = y)); tauto.
Qed.

Lemma first_seen_NoDup l : NoDup (first_seen l).
Proof.
  induction l as [|y l IH]; [constructor|]. cbn [first_seen].
  constructor; [rewrite list_elem_of_filter; tauto|by apply NoDup_filter].
Qed.

Lemma first_seen_fmap `{EqDecision B} (f : A → B) `{!Inj (=) (=) f} l :
  first_seen (f <$> l) = f <$> first_seen l.
Proof.
  induction l as [|y l IH]; [done|].
  rewrite fmap_cons. cbn [first_seen]. rewrite fmap_cons, IH. f_equal.
  generalize (first_seen l). intros l'.
  induction l' as [|z l' IH']; [done|].
  rewrite fmap_cons, !filter_cons.
  destruct (decide (z = y)) as [->|Hne].
  - by rewrite decide_False, decide_False by tauto.
  - rewrite decide_True, decide_True by (try intros ?%(inj f); done).
    by rewrite fmap_cons, IH'.
Qed.

(** The first occurrence decides the position: a key not seen before
    comes after all the keys seen so far. *)
Lemma first_seen_app l1 l2 :
  first_seen (l1 ++ l2)
  = first_seen l1 ++ filter (λ x, x ∉ l1) (first_seen l2).
Proof.
  induction l1 as [|y l1 IH]; simpl.
  - symmetry. induction (first_seen l2) as [|z l IH]; [done|].
    rewrite filter_cons_True, IH; [done|apply not_elem_of_nil].
  - f_equal. rewrite IH, filter_app. f_equal.
    rewrite list_filter_filter. apply list_filter_iff.
    intros x. rewrite not_elem_of_cons. tauto.
Qed.
End first_seen.

Lemma StronglySorted_le_lt (l : list Z) :
  NoDup l → StronglySorted Z.le l → StronglySorted Z.lt l.
Proof.
  induction 2 as [|x l _ IH Hx]; [constructor|].
  apply NoDup_cons in H as [Hnin Hnd].
  constructor; [by apply IH|].
  apply Forall_forall. intros y Hy.
  eapply Forall_forall in Hx; [|done].
  assert (x ≠ y) by (by intros ->). lia.
Qed.

(** ** The shape of printed integers *)

Lemma string_app_nil (s : string) : "" +:+ s = s.
Proof. done. Qed.

Lemma string_app_cons (x : ascii) (a s : string) :
  String x a +:+ s = String x (a +:+ s).
Proof. done. Qed.

Lemma string_app_assoc (a b c : string) : (a +:+ b) +:+ c = a +:+ (b +:+ c).
Proof.
  induction a as [|x a IH]; [done|].
  change (String x ((a +:+ b) +:+ c) = String x (a +:+ b +:+ c)). by rewrite IH.
Qed.

Lemma pretty_N_go_app (x : N) : ∀ s, pretty_N_go x s = pretty_N_go x "" +:+ s.
Proof.
  induction (N.lt_wf_0 x) as [x _ IH]; intros s.
  destruct (decide (x = 0%N)) as [->|Hx]; [by rewrite !pretty_N_go_0|].
  assert (x `div` 10 < x)%N as Hlt by (apply N.div_lt; lia).
  rewrite !(pretty_N_go_step x) by lia.
  rewrite (IH _ Hlt (String _ s)), (IH _ Hlt (String _ "")).
  by rewrite string_app_assoc.
Qed.

Lemma pretty_N_go_nonempty (x : N) : (0 < x)%N → pretty_N_go x "" ≠ "".
Proof.
  intros Hx. rewrite pretty_N_go_step, pretty_N_go_app by done.
  by destruct (pretty_N_go _ "").
Qed.

(** A printed integer is an optional minus sign followed by digits. *)
Lemma pretty_shape (y : Z) :
  ∃ (c : ascii) (r : string),
    is_digit c = true ∧ all_digits r = true
    ∧ (0 <= y ∧ pretty y = String c r ∨ y < 0 ∧ pretty y = String "-" (String c r)).
Proof.
  assert (∀ q : positive, ∃ c r, is_digit c = true ∧ all_digits r = true
            ∧ pretty (Z.pos q) = String c r) as Hpos.
  { intros q. destruct (pretty_nonneg_cases (Z.pos q)) as [[_ ?]|[Hq _]]; [lia..|].
    pose proof (all_digits_pretty (Z.pos q)) as Hd. rewrite Hq in *.
    destruct (pretty_N_go _ "") as [|c r] eqn:Hs.
    { by apply pretty_N_go_nonempty in Hs. }
    apply andb_prop in Hd as [? ?]; [eauto 6|lia]. }
  destruct y as [|q|q].
  - exists "0"%char, "". split_and!; [done..|left]. by split.
  - destruct (Hpos q) as (c & r & ? & ? & ?). exists c, r. split_and!; [done..|left].
    split; [lia|done].
  - destruct (Hpos q) as (c & r & ? & ? & Hq). exists c, r. split_and!; [done..|right].
    split; [lia|]. change (pretty (Z.neg q)) with ("-" +:+ pretty (Z.pos q)).
    by rewrite Hq.
Qed.

Lemma split_at_dash (a b t1 t2 : string) :
  all_digits a = true → all_digits b = true →
  a +:+ String "-" t1 = b +:+ String "-" t2 → a = b ∧ t1 = t2.
Proof.
  revert b. induction a as [|x a IH]; intros [|y b] Ha Hb Heq;
    rewrite ?string_app_nil, ?string_app_cons in Heq; cbn in Ha, Hb.
  - by simplify_eq.
  - by simplify_eq.
  - by simplify_eq.
  - apply andb_prop in Ha as [_ Ha]. apply andb_prop in Hb as [_ Hb].
    injection Heq as -> Heq. destruct (IH b Ha Hb Heq) as [-> ->]. done.
Qed.

Lemma dash_separated_inj (y1 m1 y2 m2 : Z) :
  pretty y1 +:+ "-" +:+ pretty m1 = pretty y2 +:+ "-" +:+ pretty m2 →
  y1 = y2 ∧ m1 = m2.
Proof.
  intros Heq.
  cut (pretty y1 = pretty y2 ∧ pretty m1 = pretty m2).
  { intros [?%(inj pretty) ?%(inj pretty)]. done. }
  destruct (pretty_shape y1) as (c1 & r1 & Hc1 & Hr1 & H1).
  destruct (pretty_shape y2) as (c2 & r2 & Hc2 & Hr2 & H2).
  assert (all_digits (String c1 r1) = true) as Hd1 by (cbn; by rewrite Hc1, Hr1).
  assert (all_digits (String c2 r2) = true) as Hd2 by (cbn; by rewrite Hc2, Hr2).
  destruct H1 as [[_ E1]|[_ E1]], H2 as [[_ E2]|[_ E2]]; rewrite E1, E2 in *.
  - by destruct (split_at_dash _ _ _ _ Hd1 Hd2 Heq) as [-> ->].
  - rewrite !string_app_cons in Heq. injection Heq as -> _. done.
  - rewrite !string_app_cons in Heq. injection Heq as <- _. done.
  - rewrite (string_app_cons "-"), (string_app_cons "-" (String c2 r2)) in Heq.
    injection Heq as -> Heq.
    by destruct (split_at_dash _ _ _ _ Hr1 Hr2 Heq) as [-> ->].
Qed.

(** ** [parseInt] on printed integers *)

Lemma is_digit_cases (c : ascii) :
  is_digit c = true →
  c ∈ ["0"; "1"; "2"; "3"; "4"; "5"; "6"; "7"; "8"; "9"]%char.
Proof.
  destruct c as [[] [] [] [] [] [] [] []]; intros H; try discriminate H;
    set_solver.
Qed.

Lemma parseInt_unsigned (c : ascii) (r : string) :
  is_digit c = true →
  parseInt (String c r) = Num (parse_digits 0 (String c r)).
Proof.
  intros Hc%is_digit_cases.
  transitivity (Num (1 * parse_digits 0 (String c r))); [|f_equal; lia].
  repeat (apply elem_of_cons in Hc as [->|Hc]; [reflexivity|]).
  by apply elem_of_nil in Hc.
Qed.

Lemma parseInt_negative (c : ascii) (r : string) :
  is_digit c = true →
  parseInt (String "-" (String c r)) = Num (- parse_digits 0 (String c r)).
Proof.
  intros Hc%is_digit_cases.
  transitivity (Num (-1 * parse_digits 0 (String c r))); [|f_equal; lia].
  repeat (apply elem_of_cons in Hc as [->|Hc]; [reflexivity|]).
  by apply elem_of_nil in Hc.
Qed.

Lemma parseInt_pretty (z : Z) : parseInt (pretty z) = Num z.
Proof.
  assert (∀ y, 0 <= y → parseInt (pretty y) = Num y
                        ∧ parseInt (String "-" (pretty y)) = Num (- y)) as Hnn.
  { intros y Hy. pose proof (parse_digits_pretty y Hy) as Hp.
    destruct (pretty_shape y) as (c & r & Hc & _ & [[_ E]|[? _]]); [|lia].
    rewrite E in *. by rewrite parseInt_unsigned, parseInt_negative, Hp. }
  destruct z as [|q|q].
  - done.
  - apply Hnn. lia.
  - change (pretty (Z.neg q)) with ("-" +:+ pretty (Z.pos q)).
    rewrite string_app_cons, string_app_nil.
    destruct (Hnn (Z.pos q)) as [_ ->]; [lia|]. done.
Qed.

(** ** [parseInt] on numerals *)

Lemma trim_start_white_space (ws s : string) :
  all_white_space ws = true → trim_start (ws +:+ s) = trim_start s.
Proof.
  induction ws as [|c ws IH]; [done|]. cbn [all_white_space].
  intros [Hc Hws]%andb_prop. rewrite string_app_cons. cbn [trim_start].
  rewrite Hc. by apply IH.
Qed.

Lemma parseInt_white_space (ws s : string) :
  all_white_space ws = true → parseInt (ws +:+ s) = parseInt s.
Proof. intros Hws. unfold parseInt. by rewrite trim_start_white_space. Qed.

Lemma digit_value_is_digit (c : ascii) :
  is_digit c = true → digit_value c = Some (Z.of_N (N_of_ascii c) - 48).
Proof.
  unfold is_digit, digit_value.
  by destruct ((48 <=? Z.of_N (N_of_ascii c)) && (Z.of_N (N_of_ascii c) <=? 57)).
Qed.

Lemma base10_nonneg (ds : string) : all_digits ds = true → 0 <= base10 ds.
Proof.
  induction ds as [|c ds IH]; [done|]. cbn [all_digits base10].
  intros [Hc Hds]%andb_prop. specialize (IH Hds).
  assert (0 <= Z.of_N (N_of_ascii c) - 48) as Hd.
  { unfold is_digit, digit_value in Hc.
    destruct (48 <=? Z.of_N (N_of_ascii c)) eqn:Hlo; [|done].
    apply Z.leb_le in Hlo. lia. }
  pose proof (Z.pow_nonneg 10 (Z.of_nat (String.length ds))). nia.
Qed.

(** Reading digits left to right gives their positional value. *)
Lemma parse_digits_base10 (ds tail : string) : ∀ acc,
  all_digits ds = true → no_digit_first tail = true →
  parse_digits acc (ds +:+ tail)
  = acc * 10 ^ Z.of_nat (String.length ds) + base10 ds.
Proof.
  induction ds as [|c ds IH]; intros acc Hds Htail.
  - rewrite string_app_nil. cbn [String.length base10].
    destruct tail as [|c tail]; cbn [parse_digits]; [lia|].
    cbn [no_digit_first] in Htail. unfold is_digit in Htail.
    destruct (digit_value c); [done|lia].
  - cbn [all_digits] in Hds. apply andb_prop in Hds as [Hc Hds].
    rewrite string_app_cons. cbn [parse_digits String.length base10].
    rewrite (digit_value_is_digit c Hc), IH by done.
    rewrite Nat2Z.inj_succ, Z.pow_succ_r by lia. lia.
Qed.

Lemma parseInt_plus (c : ascii) (r : string) :
  is_digit c = true →
  parseInt (String "+" (String c r)) = Num (parse_digits 0 (String c r)).
Proof.
  intros Hc%is_digit_cases.
  transitivity (Num (1 * parse_digits 0 (String c r))); [|f_equal; lia].
  repeat (apply elem_of_cons in Hc as [->|Hc]; [reflexivity|]).
  by apply elem_of_nil in Hc.
Qed.

Lemma parseInt_numeral (n : numeral) :
  numeral_ok n = true → parseInt (numeral_text n) = Num (numeral_value n).
Proof.
  destruct n as [ws sg ds tail]. unfold numeral_ok, numeral_text, numeral_value.
  cbn [blank sgn digits rest].
  intros [[[Hws Hne]%andb_prop Hds]%andb_prop Htail]%andb_prop.
  rewrite parseInt_white_space by done.
  pose proof (parse_digits_base10 ds tail 0 Hds Htail) as Hp.
  destruct ds as [|c ds]; [done|]. cbn [all_digits] in Hds.
  apply andb_prop in Hds as [Hc _]. rewrite string_app_cons in *.
  destruct sg; cbn [sign_text sign_factor];
    rewrite ?string_app_nil, ?string_app_cons, ?string_app_nil.
  - rewrite parseInt_unsigned, Hp by done. apply (f_equal Num). lia.
  - rewrite parseInt_plus, Hp by done. apply (f_equal Num). lia.
  - rewrite parseInt_negative, Hp by done. apply (f_equal Num). lia.
Qed.

(** What [parseInt] reads in a cell that contains an integer. *)
Lemma parseInt_holds (cell : TimeForm.field) (z : Z) :
  holds cell z → parseInt (TimeForm.to_string cell) = Num z.
Proof.
  destruct cell as [s|a]; cbn [holds TimeForm.to_string].
  - intros (n & Hn & -> & ->). by apply parseInt_numeral.
  - intros ->. apply parseInt_pretty.
Qed.

(** ** The exact range *)

Lemma magnitude_nonneg (a : number) : 0 <= magnitude a.
Proof. destruct a; simpl; lia. Qed.

Lemma magnitude_num_add (a b : number) :
  magnitude (num_add a b) <= magnitude a + magnitude b.
Proof. destruct a, b; simpl; lia. Qed.

Lemma entry_magnitude_nonneg (e : Entry.t) : 0 <= entry_magnitude e.
Proof.
  unfold entry_magnitude.
  pose proof (magnitude_nonneg (Entry.hours e)).
  pose proof (magnitude_nonneg (Entry.minutes e)). lia.
Qed.

Lemma entry_minutes_magnitude (e : Entry.t) :
  magnitude (entry_minutes e) <= entry_magnitude e.
Proof.
  unfold entry_minutes, entry_magnitude.
  destruct (Entry.hours e), (Entry.minutes e); simpl; lia.
Qed.

Lemma total_magnitude_nonneg (l : list Entry.t) : 0 <= total_magnitude l.
Proof.
  induction l as [|e l IH]; simpl; [lia|].
  pose proof (entry_magnitude_nonneg e). lia.
Qed.

Lemma total_magnitude_app (l1 l2 : list Entry.t) :
  total_magnitude (l1 ++ l2) = total_magnitude l1 + total_magnitude l2.
Proof. induction l1 as [|e l1 IH]; simpl; lia. Qed.

Lemma total_magnitude_filter (P : Entry.t → Prop) `{!∀ e, Decision (P e)}
    (l : list Entry.t) :
  total_magnitude (filter P l) <= total_magnitude l.
Proof.
  induction l as [|e l IH]; [done|]. rewrite filter_cons.
  pose proof (entry_magnitude_nonneg e).
  destruct (decide (P e)); simpl; lia.
Qed.

Lemma total_magnitude_elem_of (e : Entry.t) (l : list Entry.t) :
  e ∈ l → entry_magnitude e <= total_magnitude l.
Proof.
  induction l as [|x l IH]; [by intros ?%elem_of_nil|].
  pose proof (entry_magnitude_nonneg x). pose proof (total_magnitude_nonneg l).
  intros [->|Hin%IH]%elem_of_cons; simpl; lia.
Qed.

Lemma total_magnitude_perm (l l' : list Entry.t) :
  l ≡ₚ l' → total_magnitude l = total_magnitude l'.
Proof. induction 1; simpl; lia. Qed.

Lemma num_sum_magnitude (l : list Entry.t) :
  magnitude (num_sum (entry_minutes <$> l)) <= total_magnitude l.
Proof.
  induction l as [|e l IH]; [done|]. rewrite fmap_cons.
  change (num_sum (entry_minutes e :: (entry_minutes <$> l)))
    with (num_add (entry_minutes e) (num_sum (entry_minutes <$> l))).
  pose proof (magnitude_num_add (entry_minutes e) (num_sum (entry_minutes <$> l))).
  pose proof (entry_minutes_magnitude e). simpl. lia.
Qed.

Lemma bump_magnitude (b : option number) (a : number) :
  magnitude (to_number (bump b a)) <= magnitude (to_number b) + magnitude a.
Proof.
  unfold bump. cbn [to_number].
  pose proof (magnitude_nonneg (to_number b)).
  destruct (falsy b).
  - pose proof (magnitude_num_add (Num 0) a). simpl in *. lia.
  - apply magnitude_num_add.
Qed.

Lemma fold_bump_magnitude (l : list Entry.t) : ∀ b,
  magnitude (to_number (fold_left bump (entry_minutes <$> l) b))
  <= magnitude (to_number b) + total_magnitude l.
Proof.
  induction l as [|e l IH]; intros b; [simpl; lia|].
  rewrite fmap_cons. cbn [fold_left]. etrans; [apply IH|].
  pose proof (bump_magnitude b (entry_minutes e)).
  pose proof (entry_minutes_magnitude e).
  change (total_magnitude (e :: l)) with (entry_magnitude e + total_magnitude l).
  lia.
Qed.

(** Within the exact range every bucket stays within it, whatever the
    entries hold. *)
Lemma accumulate_magnitude (keyOf : Entry.t → string) (entries : list Entry.t)
    (k : string) (v : number) :
  obj_get (accumulate keyOf [] entries) k = Some v →
  magnitude v <= total_magnitude entries.
Proof.
  intros Hv.
  pose proof (fold_bump_magnitude (group keyOf k entries) (obj_get [] k)) as Hb.
  rewrite <-(accumulate_get keyOf entries [] k), Hv in Hb.
  pose proof (total_magnitude_filter (λ entry, keyOf entry = k) entries).
  unfold group in Hb. cbn [obj_get to_number magnitude] in Hb. lia.
Qed.

(** * The object store *)

Module IDBFacts.

Import IDB.

Global Instance key_le_trans : Transitive key_le.
Proof. intros p q r. unfold key_le. lia. Qed.

Global Instance key_le_total : Total key_le.
Proof. intros p q. unfold key_le. lia. Qed.

Lemma StronglySorted_filter {A} (R : relation A) (P : A → Prop)
    `{∀ x, Decision (P x)} (l : list A) :
  StronglySorted R l → StronglySorted R (filter P l).
Proof.
  induction 1 as [|x l _ IH Hx]; [constructor|].
  rewrite filter_cons. destruct (decide (P x)); [|done].
  constructor; [done|]. apply Forall_forall.
  intros y [_ Hy]%list_elem_of_filter. by eapply Forall_forall in Hx.
Qed.

Lemma sorted_records_elem_of (s : ObjectStore) (k : Z) (e : Entry.t) :
  (k, e) ∈ sorted_records s ↔ records s !! k = Some e.
Proof.
  unfold sorted_records. by rewrite merge_sort_Permutation, elem_of_map_to_list.
Qed.

Lemma sorted_records_sorted (s : ObjectStore) :
  StronglySorted key_le (sorted_records s).
Proof. apply StronglySorted_merge_sort; apply _. Qed.

(** The listing is strictly ascending in the key. *)
Lemma sorted_records_keys (s : ObjectStore) :
  StronglySorted Z.lt (sorted_records s).*1.
Proof.
  apply StronglySorted_le_lt.
  - unfold sorted_records. rewrite merge_sort_Permutation.
    apply NoDup_fst_map_to_list.
  - apply StronglySorted_fmap with (R1 := key_le); [|apply sorted_records_sorted].
    by intros p q.
Qed.

Lemma sorted_records_delete (k : Z) (s : ObjectStore) :
  sorted_records (delete k s) = filter (λ p, p.1 ≠ k) (sorted_records s).
Proof.
  apply StronglySorted_unique_strong with (R := key_le).
  - intros [k1 e1] [k2 e2] H1 [_ H2]%list_elem_of_filter Hle1 Hle2.
    apply sorted_records_elem_of in H1, H2. unfold key_le in *. simpl in *.
    assert (k1 = k2) as -> by lia.
    apply lookup_delete_Some in H1 as [_ H1]. congruence.
  - apply sorted_records_sorted.
  - apply StronglySorted_filter, sorted_records_sorted.
  - apply NoDup_Permutation.
    + unfold sorted_records. rewrite merge_sort_Permutation. apply NoDup_map_to_list.
    + apply NoDup_filter. unfold sorted_records.
      rewrite merge_sort_Permutation. apply NoDup_map_to_list.
    + intros [j e]. rewrite list_elem_of_filter, !sorted_records_elem_of. simpl.
      rewrite lookup_delete_Some. intuition congruence.
Qed.

Lemma filter_by_key_or_id (k : Z) (s : ObjectStore) :
  wf s →
  (filter (λ p, p.1 ≠ k) (sorted_records s)).*2
  = filter (λ e, Entry.id e ≠ k) (sorted_records s).*2.
Proof.
  intros Hs.
  assert (∀ p, p ∈ sorted_records s → Entry.id p.2 = p.1) as Hid.
  { intros [j e] Hp%sorted_records_elem_of. by apply Hs in Hp as [? _]. }
  induction (sorted_records s) as [|p l IH]; [done|].
  rewrite fmap_cons, !filter_cons, (Hid p) by left.
  rewrite <-IH by (intros; apply Hid; by right).
  by destruct (decide (p.1 ≠ k)).
Qed.

Lemma sorted_records_same (s s' : ObjectStore) :
  records s = records s' → sorted_records s = sorted_records s'.
Proof. unfold sorted_records. by intros ->. Qed.

(** *** The store invariant *)

Lemma wf_created : wf created.
Proof. intros k e. simpl. by rewrite lookup_empty. Qed.

Lemma wf_add (entry : NewEntry.t) (s : ObjectStore) : wf s → wf (add entry s).1.
Proof.
  intros Hs k e. simpl. rewrite lookup_insert_Some.
  intros [[<- <-]|[_ Hk]]; [simpl; lia|]. apply Hs in Hk. lia.
Qed.

Lemma wf_put (entry : Entry.t) (s : ObjectStore) : wf s → wf (put entry s).
Proof.
  intros Hs k e. simpl. rewrite lookup_insert_Some.
  intros [[<- <-]|[_ Hk]]; [|apply Hs in Hk]; case_decide; lia.
Qed.

Lemma wf_delete (k : Z) (s : ObjectStore) : wf s → wf (delete k s).
Proof.
  intros Hs j e. simpl. rewrite lookup_delete_Some. intros [_ Hj]. by apply Hs.
Qed.

Lemma wf_getAll (s : ObjectStore) : wf s → wf (getAll s).1.
Proof. done. Qed.

(** In a well-formed store a new record never replaces an old one. *)
Lemma add_fresh (entry : NewEntry.t) (s : ObjectStore) :
  wf s → records s !! keyGenerator s = None.
Proof.
  intros Hs. destruct (records s !! keyGenerator s) as [e|] eqn:He; [|done].
  apply Hs in He. lia.
Qed.

End IDBFacts.

(** * The aggregation views *)

Section AggregationFacts.

Variable getFullYear : Date → Z.
Variable getMonth : Date → Z.

Local Abbreviation monthKey := (monthKey getFullYear getMonth).
Local Abbreviation yearKey := (yearKey getFullYear).
Local Abbreviation totalsByMonth := (totalsByMonth getFullYear getMonth).
Local Abbreviation totalsByYear := (totalsByYear getFullYear).
Local Abbreviation getTotalTimeByMonth := (getTotalTimeByMonth getFullYear getMonth).
Local Abbreviation getTotalTimeByYear := (getTotalTimeByYear getFullYear).
Local Abbreviation year_of e := (getFullYear (Entry.createdAt e)).
Local Abbreviation month_of e := (getMonth (Entry.createdAt e)).

Lemma totalsByMonth_accumulate entries :
  totalsByMonth entries = accumulate monthKey [] entries.
Proof. done. Qed.

Lemma totalsByYear_accumulate entries :
  totalsByYear entries = accumulate yearKey [] entries.
Proof. done. Qed.

Lemma monthKey_format e :
  monthKey e = pretty (year_of e) +:+ "-" +:+ pretty (month_of e + 1).
Proof. done. Qed.

Lemma yearKey_format e : yearKey e = pretty (year_of e).
Proof. done. Qed.

(** Two entries share a month bucket exactly when their creation dates
    have the same year and the same month. *)
Lemma monthKey_inj e1 e2 :
  monthKey e1 = monthKey e2 ↔ year_of e1 = year_of e2 ∧ month_of e1 = month_of e2.
Proof.
  rewrite !monthKey_format. split.
  - intros [? ?]%dash_separated_inj. split; [done|lia].
  - by intros [-> ->].
Qed.

Lemma yearKey_inj e1 e2 : yearKey e1 = yearKey e2 ↔ year_of e1 = year_of e2.
Proof. rewrite !yearKey_format. split; [apply (inj pretty)|by intros ->]. Qed.

Lemma monthKey_not_index e : array_index (monthKey e) = None.
Proof. apply array_index_dash. Qed.

Lemma month_keys_first_seen entries :
  Object_keys (totalsByMonth entries) = first_seen (monthKey <$> entries).
Proof.
  assert ((totalsByMonth entries).*1 = first_seen (monthKey <$> entries)) as Hk.
  { rewrite totalsByMonth_accumulate, accumulate_keys. simpl.
    apply filter_not_elem_of_nil. }
  rewrite Object_keys_names; rewrite Hk; [done|].
  apply Forall_forall. intros k Hin.
  apply (proj1 (first_seen_elem_of _ _)) in Hin.
  apply list_elem_of_fmap in Hin as (e & -> & _). apply monthKey_not_index.
Qed.

Lemma year_keys_sorted entries :
  Forall (λ e, 0 <= year_of e < 2 ^ 32 - 1) entries →
  Object_keys (totalsByYear entries)
  = pretty <$> merge_sort Z.le (first_seen ((λ e, year_of e) <$> entries)).
Proof.
  intros Hall. apply Object_keys_indices.
  - rewrite totalsByYear_accumulate, accumulate_keys. simpl.
    etrans; [apply filter_not_elem_of_nil|].
    by rewrite <-(first_seen_fmap pretty), <-list_fmap_compose.
  - apply Forall_forall. intros y Hy.
    apply (proj1 (first_seen_elem_of _ _)) in Hy.
    apply list_elem_of_fmap in Hy as (e & -> & He).
    by eapply Forall_forall in Hall.
Qed.

Lemma render_keys (o : JSObject) : li_key <$> render o = Object_keys o.
Proof.
  unfold render. rewrite <-list_fmap_compose.
  induction (Object_keys o) as [|k l IH]; [done|]. rewrite fmap_cons. by f_equal.
Qed.

Lemma render_elem_of (o : JSObject) (r : li) :
  r ∈ render o →
  ∃ total, obj_get o (li_key r) = Some total
    ∧ totalHours r = floor_div60 total ∧ minutesLeft r = rem60 total.
Proof.
  intros (k & -> & Hk)%list_elem_of_fmap. simpl.
  apply Object_keys_elem_of, obj_get_is_Some in Hk as [total Hk].
  exists total. by rewrite Hk.
Qed.

Lemma render_elem_of_iff (o : JSObject) (r : li) :
  r ∈ render o
  ↔ ∃ total, obj_get o (li_key r) = Some total
      ∧ r = mk_li (li_key r) (floor_div60 total) (rem60 total).
Proof.
  split.
  - intros (k & -> & Hk)%list_elem_of_fmap. simpl.
    apply Object_keys_elem_of, obj_get_is_Some in Hk as [total Hk].
    exists total. by rewrite Hk.
  - intros (total & Hk & ->). simpl in Hk.
    apply list_elem_of_fmap. exists (li_key r). simpl. rewrite Hk. split; [done|].
    apply Object_keys_elem_of, obj_get_is_Some. by exists total.
Qed.

(** Two dictionaries with the same lookups render the same rows. *)
Lemma render_same_rows (o o' : JSObject) (r : li) :
  (∀ k, obj_get o k = obj_get o' k) → r ∈ render o ↔ r ∈ render o'.
Proof. intros Heq. rewrite !render_elem_of_iff. by setoid_rewrite Heq. Qed.

End AggregationFacts.

(** * Properties of the aggregation views *)

Section AggregationClaims.

Variable getFullYear : Date → Z.
Variable getMonth : Date → Z.

Local Abbreviation monthKey := (monthKey getFullYear getMonth).
Local Abbreviation yearKey := (yearKey getFullYear).
Local Abbreviation totalsByMonth := (totalsByMonth getFullYear getMonth).
Local Abbreviation totalsByYear := (totalsByYear getFullYear).
Local Abbreviation getTotalTimeByMonth := (getTotalTimeByMonth getFullYear getMonth).
Local Abbreviation getTotalTimeByYear := (getTotalTimeByYear getFullYear).
Local Abbreviation year_of e := (getFullYear (Entry.createdAt e)).
Local Abbreviation month_of e := (getMonth (Entry.createdAt e)).

(** C9: given zero entries, both aggregate views produce an empty
    sequence of buckets. *)
Theorem views_of_empty_collection :
  getTotalTimeByMonth [] = [] ∧ getTotalTimeByYear [] = [].
Proof. split; reflexivity. Qed.

(** C3, amended: for every list of entries whose hours and minutes are
    integers and whose durations stay within the exact range (they add
    up, in magnitude, to at most 2^53 minutes), [totalsByMonth] groups the
    entries by the string [year-month] built from the creation year and
    the 1-indexed month (two entries share a bucket exactly when year and
    month agree) and gives each group the sum of [hours*60 + minutes] over
    its entries, an integer within the exact range; minutes of 60 or more
    count as they are, so one hour and 75 minutes contribute 135. *)
Theorem month_buckets_hold_group_sums (entries : list Entry.t)
    (Hint : Forall int_entry entries) (Hrange : exact_range entries) :
  (∀ e, monthKey e = pretty (year_of e) +:+ "-" +:+ pretty (month_of e + 1))
  ∧ (∀ e1 e2, monthKey e1 = monthKey e2
              ↔ year_of e1 = year_of e2 ∧ month_of e1 = month_of e2)
  ∧ (∀ k, obj_get (totalsByMonth entries) k
          = if decide (k ∈ monthKey <$> entries)
            then Some (num_sum (entry_minutes
                                  <$> filter (λ e, monthKey e = k) entries))
            else None)
  ∧ (∀ k, k ∈ monthKey <$> entries →
       ∃ zs : list Z,
         entry_minutes <$> filter (λ e, monthKey e = k) entries = Num <$> zs
         ∧ obj_get (totalsByMonth entries) k = Some (Num (foldr Z.add 0 zs))
         ∧ Z.abs (foldr Z.add 0 zs) <= 2 ^ 53)
  ∧ (∀ e, e ∈ entries →
       ∃ h m : Z,
         Entry.hours e = Num h ∧ Entry.minutes e = Num m
         ∧ entry_minutes e = Num (h * 60 + m)
         ∧ Z.abs (h * 60) <= 2 ^ 53 ∧ Z.abs (h * 60 + m) <= 2 ^ 53)
  ∧ (∀ i d, entry_minutes (Entry.mk i (Num 1) (Num 75) d) = Num 135).
Proof.
  unfold exact_range in Hrange.
  split_and!; [done|apply monthKey_inj| | | |done].
  - intros k. rewrite totalsByMonth_accumulate. by apply accumulate_sum.
  - intros k Hk. rewrite totalsByMonth_accumulate.
    destruct (accumulate_sum_Z monthKey entries k Hint Hk) as (zs & Hzs & Hget).
    exists zs. split_and!; [done..|].
    apply accumulate_magnitude in Hget. simpl in Hget. lia.
  - intros e He. pose proof (total_magnitude_elem_of e entries He) as Hmag.
    eapply Forall_forall in Hint; [|exact He]. destruct Hint as [Hh Hm].
    unfold entry_magnitude, entry_minutes in *.
    destruct (Entry.hours e) as [|h]; [done|].
    destruct (Entry.minutes e) as [|m]; [done|].
    exists h, m. simpl in *. split_and!; [done..|lia|lia].
Qed.

(** C4, amended: for every multiset of entries whose hours and minutes
    are integers and whose durations stay within the exact range, and any
    two orderings of it, [totalsByMonth] and [totalsByYear] hold the same
    total minutes in every month bucket and in every year bucket, and both
    views render the same rows; the other ordering is within the exact
    range as well. *)
Theorem totals_do_not_depend_on_order (entries entries' : list Entry.t)
    (Hperm : entries ≡ₚ entries') (Hint : Forall int_entry entries)
    (Hrange : exact_range entries) :
  (∀ k, obj_get (totalsByMonth entries) k = obj_get (totalsByMonth entries') k
        ∧ obj_get (totalsByYear entries) k = obj_get (totalsByYear entries') k)
  ∧ (∀ r, r ∈ getTotalTimeByMonth entries ↔ r ∈ getTotalTimeByMonth entries')
  ∧ (∀ r, r ∈ getTotalTimeByYear entries ↔ r ∈ getTotalTimeByYear entries')
  ∧ exact_range entries'
  ∧ (∀ k v, obj_get (totalsByMonth entries') k = Some v
            ∨ obj_get (totalsByYear entries') k = Some v →
       magnitude v <= 2 ^ 53).
Proof.
  assert (∀ k, obj_get (totalsByMonth entries) k
               = obj_get (totalsByMonth entries') k) as Hmonth.
  { intros k. rewrite !totalsByMonth_accumulate. by apply accumulate_perm. }
  assert (∀ k, obj_get (totalsByYear entries) k
               = obj_get (totalsByYear entries') k) as Hyear.
  { intros k. rewrite !totalsByYear_accumulate. by apply accumulate_perm. }
  assert (exact_range entries') as Hrange'.
  { unfold exact_range. by rewrite <-(total_magnitude_perm entries entries'). }
  split_and!; [done| | |done|].
  - intros r. by apply render_same_rows.
  - intros r. by apply render_same_rows.
  - unfold exact_range in Hrange'.
    intros k v [Hv|Hv]; apply accumulate_magnitude in Hv; lia.
Qed.

(** C5, amended: [totalsByMonth] lists its buckets in the order in which
    each month key first occurs in the entry list.  [totalsByYear] does
    not: its keys are integers, and whenever the years are non-negative
    (below 2^32 - 1) the buckets come out in ascending order of the year,
    one per year present, wherever each year first occurs. *)
Theorem bucket_order (entries : list Entry.t)
    (Hyears : Forall (λ e, 0 <= year_of e < 2 ^ 32 - 1) entries) :
  (∀ l, li_key <$> getTotalTimeByMonth l = first_seen (monthKey <$> l))
  ∧ ∃ ys : list Z,
      li_key <$> getTotalTimeByYear entries = pretty <$> ys
      ∧ StronglySorted Z.lt ys
      ∧ ∀ y, y ∈ ys ↔ ∃ e, e ∈ entries ∧ year_of e = y.
Proof.
  split.
  { intros l. etrans; [apply render_keys|]. apply month_keys_first_seen. }
  exists (merge_sort Z.le (first_seen ((λ e, year_of e) <$> entries))).
  split_and!.
  - etrans; [apply render_keys|]. by apply year_keys_sorted.
  - apply StronglySorted_le_lt; [|apply StronglySorted_merge_sort; apply _].
    rewrite merge_sort_Permutation. apply first_seen_NoDup.
  - intros y. rewrite merge_sort_Permutation, first_seen_elem_of, list_elem_of_fmap.
    split; intros (e & ? & ?); exists e; by split.
Qed.

(** C7, amended: for every non-negative bucket total, expressed in
    minutes, of entries whose durations stay within the exact range, the
    row of the bucket shows the pair [(floor (total / 60), total mod 60)],
    the split of the total into whole hours and remaining minutes, with no
    further rounding or carry; the total is at most 2^53.  Entries of 1:45
    and 0:30 dated in the same month give a monthly total of 135 minutes,
    displayed as 2:15. *)
Theorem rows_show_hours_and_remainder (entries : list Entry.t)
    (Hrange : exact_range entries) :
  (∀ r, r ∈ getTotalTimeByMonth entries →
     is_Some (obj_get (totalsByMonth entries) (li_key r)))
  ∧ (∀ r, r ∈ getTotalTimeByYear entries →
     is_Some (obj_get (totalsByYear entries) (li_key r)))
  ∧ (∀ r t,
       r ∈ getTotalTimeByMonth entries →
       obj_get (totalsByMonth entries) (li_key r) = Some (Num t) → 0 <= t →
       totalHours r = Num (t / 60) ∧ minutesLeft r = Num (t mod 60)
       ∧ t <= 2 ^ 53)
  ∧ (∀ r t,
       r ∈ getTotalTimeByYear entries →
       obj_get (totalsByYear entries) (li_key r) = Some (Num t) → 0 <= t →
       totalHours r = Num (t / 60) ∧ minutesLeft r = Num (t mod 60)
       ∧ t <= 2 ^ 53)
  ∧ (∀ t, 0 <= t → t = 60 * (t / 60) + t mod 60 ∧ 0 <= t mod 60 < 60)
  ∧ (∀ i1 i2 d1 d2,
       getFullYear d1 = getFullYear d2 → getMonth d1 = getMonth d2 →
       let e1 := Entry.mk i1 (Num 1) (Num 45) d1 in
       let e2 := Entry.mk i2 (Num 0) (Num 30) d2 in
       exact_range [e1; e2]
       ∧ obj_get (totalsByMonth [e1; e2]) (monthKey e1) = Some (Num 135)
       ∧ getTotalTimeByMonth [e1; e2] = [mk_li (monthKey e1) (Num 2) (Num 15)]
       ∧ li_text <$> getTotalTimeByMonth [e1; e2] = [monthKey e1 +:+ ": 2:15"]).
Proof.
  assert (∀ keyOf r t,
            r ∈ render (accumulate keyOf [] entries) →
            obj_get (accumulate keyOf [] entries) (li_key r) = Some (Num t) →
            0 <= t →
            totalHours r = Num (t / 60) ∧ minutesLeft r = Num (t mod 60)
            ∧ t <= 2 ^ 53) as Hrow.
  { intros keyOf r t (total & Hk & -> & ->)%render_elem_of Ht Hnn.
    rewrite Hk in Ht. injection Ht as ->. simpl.
    rewrite Z.rem_mod_nonneg by lia. split_and!; [done..|].
    apply accumulate_magnitude in Hk. unfold exact_range in Hrange.
    simpl in Hk. lia. }
  split_and!.
  - intros r (total & -> & _)%render_elem_of. by eexists.
  - intros r (total & -> & _)%render_elem_of. by eexists.
  - intros r t. apply (Hrow monthKey).
  - intros r t. apply (Hrow yearKey).
  - intros t Ht. pose proof (Z.div_mod t 60). pose proof (Z.mod_pos_bound t 60). lia.
  - intros i1 i2 d1 d2 Hy Hm e1 e2.
    assert (monthKey e2 = monthKey e1) as Hk by (apply monthKey_inj; by split).
    assert (totalsByMonth [e1; e2] = [(monthKey e1, Num 135)]) as Ho.
    { rewrite totalsByMonth_accumulate. unfold accumulate. cbn [fold_left].
      by rewrite Hk, add_to_bucket_nil, add_to_bucket_single. }
    split; [by vm_compute|].
    change (getTotalTimeByMonth [e1; e2]) with (render (totalsByMonth [e1; e2])).
    rewrite Ho. cbn [obj_get]. rewrite decide_True by done.
    assert (render [(monthKey e1, Num 135)] = [mk_li (monthKey e1) (Num 2) (Num 15)])
      as ->; [|done].
    unfold render. rewrite Object_keys_names.
    + cbn. by rewrite decide_True.
    + repeat constructor. apply monthKey_not_index.
Qed.

End AggregationClaims.

(** ** The views at concrete entries (UTC host) *)

Example march_key :
  monthKey UTC.getFullYear UTC.getMonth (Entry.mk 1 (Num 1) (Num 75) march15_2024)
  = "2024-3".
Proof. by vm_compute. Qed.

Example sample_rows :
  li_text <$> getTotalTimeByMonth UTC.getFullYear UTC.getMonth sample_entries
  = ["2024-3: 2:45"; "2025-1: 2:0"].
Proof. by vm_compute. Qed.

Lemma sample_entries_int : Forall int_entry sample_entries.
Proof. repeat constructor; by vm_compute. Defined.

Lemma sample_entries_range : exact_range sample_entries.
Proof. by vm_compute. Defined.

Lemma sample_entries_years :
  Forall (λ e, 0 <= UTC.getFullYear (Entry.createdAt e) < 2 ^ 32 - 1)
    (reverse sample_entries).
Proof. repeat constructor; by vm_compute. Defined.

Lemma month_buckets_witness :
  Forall int_entry sample_entries
  ∧ exact_range sample_entries
  ∧ UTC.getMonth march15_2024 = 2
  ∧ monthKey UTC.getFullYear UTC.getMonth (Entry.mk 1 (Num 1) (Num 75) march15_2024)
    = "2024-3"
  ∧ obj_get (totalsByMonth UTC.getFullYear UTC.getMonth sample_entries) "2024-3"
    = Some (Num 165).
Proof.
  destruct (month_buckets_hold_group_sums UTC.getFullYear UTC.getMonth
              sample_entries sample_entries_int sample_entries_range)
    as (Hfmt & _ & Hk & _).
  split_and!; [exact sample_entries_int|exact sample_entries_range
              |by vm_compute| |].
  - rewrite Hfmt. by vm_compute.
  - rewrite Hk. by vm_compute.
Defined.

(** The claim C3 as stated fails once an unreadable number was stored: the
    bucket holds 5 although the sum over its two entries is [NaN]. *)
Lemma month_bucket_differs_from_sum :
  let entries := [unread_entry; five_minutes] in
  let k := "2024-3" in
  Entry.hours unread_entry = NaN
  ∧ obj_get (totalsByMonth UTC.getFullYear UTC.getMonth entries) k = Some (Num 5)
  ∧ num_sum (entry_minutes
               <$> filter (λ e, monthKey UTC.getFullYear UTC.getMonth e = k) entries)
    = NaN
  ∧ obj_get (totalsByMonth UTC.getFullYear UTC.getMonth entries) k
    ≠ Some (num_sum (entry_minutes
               <$> filter (λ e, monthKey UTC.getFullYear UTC.getMonth e = k) entries)).
Proof. split_and!; by vm_compute. Qed.

Lemma order_independence_witness :
  sample_entries ≡ₚ reverse sample_entries
  ∧ Forall int_entry sample_entries
  ∧ exact_range sample_entries
  ∧ ∀ k,
      obj_get (totalsByMonth UTC.getFullYear UTC.getMonth sample_entries) k
      = obj_get (totalsByMonth UTC.getFullYear UTC.getMonth (reverse sample_entries)) k
      ∧ obj_get (totalsByYear UTC.getFullYear sample_entries) k
        = obj_get (totalsByYear UTC.getFullYear (reverse sample_entries)) k.
Proof.
  split_and!; [symmetry; apply reverse_Permutation|exact sample_entries_int
              |exact sample_entries_range|].
  apply (totals_do_not_depend_on_order UTC.getFullYear UTC.getMonth
           sample_entries (reverse sample_entries));
    [symmetry; apply reverse_Permutation|exact sample_entries_int
    |exact sample_entries_range].
Defined.

(** The claim C4 as stated fails: the same two entries give a month total
    of 5 in one order and of [NaN] in the other. *)
Lemma order_matters_after_NaN :
  [unread_entry; five_minutes] ≡ₚ [five_minutes; unread_entry]
  ∧ obj_get (totalsByMonth UTC.getFullYear UTC.getMonth [unread_entry; five_minutes])
      "2024-3" = Some (Num 5)
  ∧ obj_get (totalsByMonth UTC.getFullYear UTC.getMonth [five_minutes; unread_entry])
      "2024-3" = Some NaN
  ∧ obj_get (totalsByYear UTC.getFullYear [unread_entry; five_minutes]) "2024"
    = Some (Num 5)
  ∧ obj_get (totalsByYear UTC.getFullYear [five_minutes; unread_entry]) "2024"
    = Some NaN.
Proof. split_and!; [apply perm_swap|by vm_compute..]. Qed.

Lemma bucket_order_witness :
  Forall (λ e, 0 <= UTC.getFullYear (Entry.createdAt e) < 2 ^ 32 - 1)
    (reverse sample_entries)
  ∧ li_key <$> getTotalTimeByMonth UTC.getFullYear UTC.getMonth (reverse sample_entries)
    = ["2025-1"; "2024-3"]
  ∧ ∃ ys : list Z,
      li_key <$> getTotalTimeByYear UTC.getFullYear (reverse sample_entries)
      = pretty <$> ys
      ∧ StronglySorted Z.lt ys
      ∧ ∀ y, y ∈ ys ↔ ∃ e, e ∈ reverse sample_entries
                           ∧ UTC.getFullYear (Entry.createdAt e) = y.
Proof.
  split; [exact sample_entries_years|].
  destruct (bucket_order UTC.getFullYear UTC.getMonth (reverse sample_entries)
              sample_entries_years) as [Hmonth Hyear].
  split; [rewrite Hmonth; by vm_compute|exact Hyear].
Defined.

(** The claim C5 as stated fails for the year view: 2025 is seen first,
    yet the bucket of 2024 is listed first. *)
Lemma year_buckets_not_in_first_seen_order :
  let entries := reverse sample_entries in
  first_seen (yearKey UTC.getFullYear <$> entries) = ["2025"; "2024"]
  ∧ li_key <$> getTotalTimeByYear UTC.getFullYear entries = ["2024"; "2025"]
  ∧ li_key <$> getTotalTimeByYear UTC.getFullYear entries
    ≠ first_seen (yearKey UTC.getFullYear <$> entries).
Proof. split_and!; by vm_compute. Qed.

Lemma rows_witness :
  exact_range sample_entries
  ∧ 0 <= 165
  ∧ totalHours (mk_li "2024-3" (Num 2) (Num 45)) = Num (165 / 60)
  ∧ minutesLeft (mk_li "2024-3" (Num 2) (Num 45)) = Num (165 mod 60)
  ∧ UTC.getFullYear march15_2024 = UTC.getFullYear (march15_2024 + 3600000)
  ∧ UTC.getMonth march15_2024 = UTC.getMonth (march15_2024 + 3600000)
  ∧ li_text <$> getTotalTimeByMonth UTC.getFullYear UTC.getMonth
        [Entry.mk 1 (Num 1) (Num 45) march15_2024;
         Entry.mk 2 (Num 0) (Num 30) (march15_2024 + 3600000)]
    = ["2024-3: 2:15"].
Proof.
  destruct (rows_show_hours_and_remainder UTC.getFullYear UTC.getMonth
              sample_entries sample_entries_range)
    as (_ & _ & Hmonth & _ & _ & Hexample).
  assert (getTotalTimeByMonth UTC.getFullYear UTC.getMonth sample_entries
          = [mk_li "2024-3" (Num 2) (Num 45); mk_li "2025-1" (Num 2) (Num 0)])
    as Hview by by vm_compute.
  destruct (Hmonth (mk_li "2024-3" (Num 2) (Num 45)) 165) as (Hh & Hm & _).
  { rewrite Hview. left. }
  { by vm_compute. }
  { lia. }
  split_and!; [exact sample_entries_range|lia|exact Hh|exact Hm
              |by vm_compute|by vm_compute|].
  destruct (Hexample 1 2 march15_2024 (march15_2024 + 3600000))
    as (_ & _ & _ & ->); by vm_compute.
Defined.

(** The claim C7 as stated fails for a negative total: [%] takes the sign
    of the total, so -30 minutes are shown as -1:-30, whereas
    [floor (-30 / 60) = -1] and [-30 mod 60 = 30]. *)
Lemma negative_total_is_not_floor_and_mod :
  let entries := [minus_thirty] in
  obj_get (totalsByMonth UTC.getFullYear UTC.getMonth entries) "2024-3"
  = Some (Num (-30))
  ∧ getTotalTimeByMonth UTC.getFullYear UTC.getMonth entries
    = [mk_li "2024-3" (Num (-1)) (Num (-30))]
  ∧ getTotalTimeByMonth UTC.getFullYear UTC.getMonth entries
    ≠ [mk_li "2024-3" (Num (-30 / 60)) (Num (-30 mod 60))].
Proof. split_and!; by vm_compute. Qed.

(** * The form and the controller *)

Lemma loadEntries_spec (w : World) :
  db (loadEntries w)
  = IDB.mk (IDB.records (db w)) (IDB.keyGenerator (db w))
      (IDB.served (db w) ++ [IDB.GetAll])
  ∧ entries (app (loadEntries w)) = (IDB.sorted_records (db w)).*2
  ∧ editingEntry (app (loadEntries w)) = editingEntry (app w).
Proof. done. Qed.

(** X17: every handler keeps the store well formed: each record sits under
    the key equal to its own [id], and every key in use is below the key
    generator, so a created entry never lands on an existing one. *)
Lemma handlers_keep_wf (w : World) :
  IDB.wf (db w) →
  IDB.wf (db (loadEntries w))
  ∧ (∀ entry, IDB.wf (db (handleAddEntry entry w)))
  ∧ (∀ e, IDB.wf (db (handleEditEntry e w)))
  ∧ (∀ k, IDB.wf (db (handleDeleteEntry k w))).
Proof.
  intros Hw. split_and!; [done| |done|].
  - intros entry. unfold handleAddEntry.
    destruct (editingEntry (app w)) as [e|].
    + by apply (IDBFacts.wf_put (with_id (Entry.id e) entry)) in Hw.
    + by apply (IDBFacts.wf_add entry) in Hw.
  - intros k. by apply (IDBFacts.wf_delete k) in Hw.
Qed.

(** A form opened on an entry and submitted untouched reads back the
    numbers it was given. *)
Lemma prefilled_form_reads_back (e : Entry.t) (now : Date) :
  TimeForm.entry_of now (TimeForm.init (Some e))
  = NewEntry.mk (Entry.hours e) (Entry.minutes e) now.
Proof.
  unfold TimeForm.entry_of. simpl.
  destruct (Entry.hours e), (Entry.minutes e); simpl;
    by rewrite ?parseInt_pretty.
Qed.

Example parseInt_samples :
  parseInt "12" = Num 12 ∧ parseInt "-7" = Num (-7) ∧ parseInt "007" = Num 7
  ∧ parseInt "1e3" = Num 1 ∧ parseInt "  42  " = Num 42
  ∧ parseInt "" = NaN ∧ parseInt "-" = NaN ∧ parseInt ".5e1" = NaN.
Proof. by vm_compute. Qed.

(** C8: on every submission the form parses both cells as base-10
    integers, builds exactly the object [{hours, minutes, createdAt: now}]
    (an object without [id]), calls the submit callback with it, once, and
    clears both cells.  Whenever the hours cell contains the integer [h]
    and the minutes cell the integer [m], each as a numeral (white space,
    an optional sign, the digits of the integer in base 10, and possibly
    more text after the digits) or as the number the cell was initialised
    with, both within the exact range, the callback receives
    [{hours: h, minutes: m, createdAt: now}]; whatever the cells contain,
    it receives the two values read by [parseInt] and the clock reading. *)
Theorem form_submission {W : Type} (onSubmit : NewEntry.t → W → W)
    (now : Date) (hc mc : TimeForm.field) (h m : Z) (w : W)
    (Hh : holds hc h) (Hm : holds mc m)
    (Hhr : Z.abs h <= 2 ^ 53) (Hmr : Z.abs m <= 2 ^ 53) :
  TimeForm.handleSubmit onSubmit now (TimeForm.mk hc mc) w
  = (TimeForm.mk (TimeForm.Text "") (TimeForm.Text ""),
     onSubmit (NewEntry.mk (Num h) (Num m) now) w)
  ∧ (∀ calls : list NewEntry.t,
       (TimeForm.handleSubmit (λ entry log, log ++ [entry]) now
          (TimeForm.mk hc mc) calls).2
       = calls ++ [NewEntry.mk (Num h) (Num m) now])
  ∧ (∀ f : TimeForm.state,
       TimeForm.handleSubmit onSubmit now f w
       = (TimeForm.mk (TimeForm.Text "") (TimeForm.Text ""),
          onSubmit
            (NewEntry.mk (parseInt (TimeForm.to_string (TimeForm.hours f)))
                         (parseInt (TimeForm.to_string (TimeForm.minutes f)))
                         now)
            w)).
Proof.
  assert (TimeForm.entry_of now (TimeForm.mk hc mc)
          = NewEntry.mk (Num h) (Num m) now) as Hentry.
  { unfold TimeForm.entry_of. cbn [TimeForm.hours TimeForm.minutes].
    by rewrite (parseInt_holds hc h), (parseInt_holds mc m). }
  unfold TimeForm.handleSubmit. rewrite Hentry. by split_and!.
Qed.

(** A cell with the text [  007.5] contains 7, a cell initialised with the
    number 30 contains 30. *)
Lemma form_submission_witness :
  holds (TimeForm.Text "  007.5") 7
  ∧ holds (TimeForm.Number (Num 30)) 30
  ∧ TimeForm.handleSubmit (λ entry log, log ++ [entry]) jan1_2025
      (TimeForm.mk (TimeForm.Text "  007.5") (TimeForm.Number (Num 30))) []
    = (TimeForm.mk (TimeForm.Text "") (TimeForm.Text ""),
       [NewEntry.mk (Num 7) (Num 30) jan1_2025]).
Proof.
  assert (holds (TimeForm.Text "  007.5") 7) as Hh.
  { exists (mk_numeral "  " NoSign "007" ".5"). by vm_compute. }
  assert (holds (TimeForm.Number (Num 30)) 30) as Hm by done.
  split_and!; [done..|].
  apply (form_submission (λ entry log, log ++ [entry]) jan1_2025
           (TimeForm.Text "  007.5") (TimeForm.Number (Num 30)) 7 30 [] Hh Hm);
    lia.
Defined.

(** What [handleAddEntry] does on each of its two paths. *)
Lemma handleAddEntry_update (entry : NewEntry.t) (w : World) (e : Entry.t) :
  editingEntry (app w) = Some e →
  handleAddEntry entry w
  = loadEntries
      (mk_world (updateEntry (with_id (Entry.id e) entry) (db w))
                (setEditingEntry None (app w))).
Proof. unfold handleAddEntry. by intros ->. Qed.

Lemma handleAddEntry_create (entry : NewEntry.t) (w : World) :
  editingEntry (app w) = None →
  handleAddEntry entry w
  = loadEntries (mk_world (addEntry entry (db w)).1 (app w)).
Proof. unfold handleAddEntry. by intros ->. Qed.


(** C6: deleting an id removes exactly the record with that id: every
    other record keeps its id and its fields, and the reloaded list is
    the former listing without that record.  For an id that is not in the
    store the request succeeds as well and the collection is unchanged. *)
Theorem delete_removes_exactly_one (k : Z) (w : World) :
  let w' := handleDeleteEntry k w in
  IDB.served (db w') = IDB.served (db w) ++ [IDB.Delete k; IDB.GetAll]
  ∧ IDB.records (db w') !! k = None
  ∧ (∀ j, j ≠ k → IDB.records (db w') !! j = IDB.records (db w) !! j)
  ∧ entries (app w') = (filter (λ p, p.1 ≠ k) (IDB.sorted_records (db w))).*2
  ∧ (IDB.wf (db w) →
       entries (app w')
       = filter (λ e, Entry.id e ≠ k) (IDB.sorted_records (db w)).*2)
  ∧ (IDB.records (db w) !! k = None →
       IDB.records (db w') = IDB.records (db w)
       ∧ entries (app w') = (IDB.sorted_records (db w)).*2).
Proof.
  intros w'. subst w'. unfold handleDeleteEntry, deleteEntry. simpl.
  rewrite <-app_assoc. split_and!.
  - done.
  - apply lookup_delete_eq.
  - intros j Hj. by apply lookup_delete_ne.
  - f_equal. apply (IDBFacts.sorted_records_delete k (db w)).
  - intros Hw. rewrite <-IDBFacts.filter_by_key_or_id by done.
    f_equal. apply (IDBFacts.sorted_records_delete k (db w)).
  - intros Hk. split; [by apply delete_id|].
    f_equal. apply IDBFacts.sorted_records_same. simpl. by apply delete_id.
Qed.

(** Well-formedness is decidable: on a concrete store it is checked by
    evaluation. *)
Lemma wf_by_evaluation (s : IDB.ObjectStore) :
  bool_decide
    (map_Forall (λ k e, Entry.id e = k ∧ k < IDB.keyGenerator s) (IDB.records s))
  = true →
  IDB.wf s.
Proof. intros H. by apply bool_decide_eq_true in H. Defined.

Lemma delete_witness :
  IDB.wf (db one_entry_world)
  ∧ IDB.records (db one_entry_world) !! 7 = None
  ∧ entries (app (handleDeleteEntry 1 one_entry_world)) = []
  ∧ IDB.records (db (handleDeleteEntry 7 one_entry_world))
    = IDB.records (db one_entry_world)
  ∧ entries (app (handleDeleteEntry 7 one_entry_world)) = [first_entry].
Proof.
  assert (IDB.wf (db one_entry_world)) as Hw
    by (apply wf_by_evaluation; by vm_compute).
  assert (IDB.records (db one_entry_world) !! 7 = None) as Hk by by vm_compute.
  destruct (delete_removes_exactly_one 1 one_entry_world)
    as (_ & _ & _ & _ & Hdel & _).
  destruct (delete_removes_exactly_one 7 one_entry_world)
    as (_ & _ & _ & _ & _ & Habsent).
  destruct (Habsent Hk) as [Hrec Hlist].
  split_and!; [done|done| |done|].
  - rewrite (Hdel Hw). by vm_compute.
  - rewrite Hlist. by vm_compute.
Defined.

(** C10: while an entry [e] is marked as being edited, deleting its id
    leaves the marker in place; the next form submission then calls
    [put] with [e]'s id, which inserts a record under that id again. *)
Theorem deleting_the_edited_entry (w : World) (e : Entry.t) (now : Date)
    (f : TimeForm.state) (Hedit : editingEntry (app w) = Some e) :
  let w1 := handleDeleteEntry (Entry.id e) w in
  let w2 := (submit now f w1).2 in
  let stamped := with_id (Entry.id e) (TimeForm.entry_of now f) in
  editingEntry (app w1) = Some e
  ∧ IDB.records (db w1) !! Entry.id e = None
  ∧ IDB.served (db w2) = IDB.served (db w1) ++ [IDB.Put stamped; IDB.GetAll]
  ∧ IDB.records (db w2) !! Entry.id e = Some stamped
  ∧ stamped ∈ entries (app w2)
  ∧ editingEntry (app w2) = None.
Proof.
  intros w1 w2 stamped.
  assert (editingEntry (app w1) = Some e) as Hstill by done.
  assert (w2 = loadEntries
                 (mk_world (updateEntry stamped (db w1))
                           (setEditingEntry None (app w1)))) as Hw2.
  { unfold w2, submit, TimeForm.handleSubmit. cbn [snd].
    by apply handleAddEntry_update. }
  assert (IDB.records (db w2) !! Entry.id e = Some stamped) as Hlook.
  { rewrite Hw2. simpl. apply lookup_insert_eq. }
  split_and!; [done|apply lookup_delete_eq| |exact Hlook| |by rewrite Hw2].
  - rewrite Hw2. simpl. by rewrite <-app_assoc.
  - rewrite Hw2. destruct (loadEntries_spec
      (mk_world (updateEntry stamped (db w1)) (setEditingEntry None (app w1))))
      as (_ & -> & _).
    apply list_elem_of_fmap. exists (Entry.id e, stamped).
    split; [done|]. apply IDBFacts.sorted_records_elem_of.
    simpl. apply lookup_insert_eq.
Qed.

Lemma deleting_the_edited_entry_witness :
  editingEntry (app editing_world) = Some first_entry
  ∧ entries (app (handleDeleteEntry 1 editing_world)) = []
  ∧ entries (app (submit jan1_2025 two_and_a_half
                    (handleDeleteEntry 1 editing_world)).2)
    = [Entry.mk 1 (Num 2) (Num 30) jan1_2025]
  ∧ Entry.mk 1 (Num 2) (Num 30) jan1_2025
    ∈ entries (app (submit jan1_2025 two_and_a_half
                      (handleDeleteEntry 1 editing_world)).2).
Proof.
  assert (editingEntry (app editing_world) = Some first_entry) as Hedit by done.
  split_and!; [done|by vm_compute|by vm_compute|].
  apply (deleting_the_edited_entry editing_world first_entry jan1_2025
           two_and_a_half Hedit).
Defined.

(** C1, amended: the creation timestamp is the wall-clock time at which
    the form was submitted.  This holds on both paths: a new record gets
    the time of its creation, and replacing a record through the edit
    path keeps its id but overwrites hours, minutes and [createdAt] with
    those of the submitted object, so [createdAt] becomes the time of the
    edit; no other record changes. *)
Theorem submission_stamps_createdAt (now : Date) (f : TimeForm.state)
    (w : World) :
  let w' := (submit now f w).2 in
  let h := parseInt (TimeForm.to_string (TimeForm.hours f)) in
  let m := parseInt (TimeForm.to_string (TimeForm.minutes f)) in
  match editingEntry (app w) with
  | Some e =>
      IDB.records (db w') !! Entry.id e = Some (Entry.mk (Entry.id e) h m now)
      ∧ ∀ j, j ≠ Entry.id e → IDB.records (db w') !! j = IDB.records (db w) !! j
  | None =>
      let key := IDB.keyGenerator (db w) in
      IDB.records (db w') !! key = Some (Entry.mk key h m now)
      ∧ ∀ j, j ≠ key → IDB.records (db w') !! j = IDB.records (db w) !! j
  end.
Proof.
  intros w' h m. subst w'. unfold submit, TimeForm.handleSubmit. cbn [snd].
  destruct (editingEntry (app w)) as [e|] eqn:He.
  - rewrite (handleAddEntry_update _ w e He). simpl.
    split; [apply lookup_insert_eq|]. intros j Hj. by apply lookup_insert_ne.
  - rewrite (handleAddEntry_create _ w He). simpl.
    split; [apply lookup_insert_eq|]. intros j Hj. by apply lookup_insert_ne.
Qed.

(** An edit on 2025-01-01 of the entry created on 2024-03-15. *)
Lemma submission_stamps_witness :
  editingEntry (app editing_world) = Some first_entry
  ∧ IDB.records (db (submit jan1_2025 two_and_a_half editing_world).2) !! 1
    = Some (Entry.mk 1 (Num 2) (Num 30) jan1_2025).
Proof.
  split; [done|].
  pose proof (submission_stamps_createdAt jan1_2025 two_and_a_half editing_world)
    as Hsub.
  apply Hsub.
Defined.

(** The claim C1 as stated fails: an entry created on 2024-03-15 and
    replaced through the edit path on 2025-01-01 carries the later date. *)
Lemma edit_changes_createdAt :
  let w' := (submit jan1_2025 two_and_a_half editing_world).2 in
  editingEntry (app editing_world) = Some first_entry
  ∧ Entry.createdAt <$> IDB.records (db editing_world) !! 1 = Some march15_2024
  ∧ Entry.createdAt <$> IDB.records (db w') !! 1 = Some jan1_2025
  ∧ Entry.createdAt <$> IDB.records (db w') !! 1
    ≠ Entry.createdAt <$> IDB.records (db editing_world) !! 1.
Proof. split_and!; by vm_compute. Qed.

(** * Further properties of the form *)

Lemma pretty_N_go_append (x : N) (s : string) :
  pretty_N_go x "" +:+ s = pretty_N_go x s.
Proof. symmetry. apply pretty_N_go_app. Qed.

Lemma parse_digits_pretty_app (y : Z) (s : string) :
  0 <= y → parse_digits 0 (pretty y +:+ s) = parse_digits y s.
Proof.
  intros [[-> ->]|[-> Hy]]%pretty_nonneg_cases; [done|].
  rewrite pretty_N_go_append.
  destruct (parse_digits_pretty_N_go (Z.to_N y)) as [p ->]. f_equal. lia.
Qed.

Lemma parseInt_pretty_app (z : Z) (c : ascii) (r : string) :
  is_digit c = false → parseInt (pretty z +:+ String c r) = Num z.
Proof.
  intros Hc.
  assert (∀ y, 0 <= y →
            parseInt (pretty y +:+ String c r) = Num y
            ∧ parseInt (String "-" (pretty y +:+ String c r)) = Num (- y)) as Hnn.
  { intros y Hy.
    assert (parse_digits 0 (pretty y +:+ String c r) = y) as Hp.
    { rewrite parse_digits_pretty_app by done. cbn [parse_digits].
      unfold is_digit in Hc. by destruct (digit_value c). }
    destruct (pretty_shape y) as (c0 & r0 & Hc0 & _ & [[_ E]|[? _]]); [|lia].
    rewrite E, string_app_cons in *.
    by rewrite parseInt_unsigned, parseInt_negative, Hp. }
  destruct z as [|q|q].
  - by apply Hnn.
  - apply Hnn. lia.
  - change (pretty (Z.neg q)) with ("-" +:+ pretty (Z.pos q)).
    rewrite string_app_assoc, (string_app_cons "-"), string_app_nil.
    destruct (Hnn (Z.pos q)) as [_ ->]; [lia|]. done.
Qed.

(** X1: the form keeps the integer at the start of the text typed in a
    cell and drops whatever follows it from the first character that is
    not a digit on: for an integer within the exact range, a fraction, an
    exponent or a unit after it never changes the value submitted. *)
Theorem parseInt_reads_integer_prefix (z : Z) (c : ascii) (r : string)
    (Hz : Z.abs z <= 2 ^ 53) (Hc : is_digit c = false) :
  ∀ (now : Date) (other : TimeForm.field),
    NewEntry.hours
      (TimeForm.entry_of now
         (TimeForm.mk (TimeForm.Text (pretty z +:+ String c r)) other))
    = Num z
    ∧ NewEntry.minutes
        (TimeForm.entry_of now
           (TimeForm.mk other (TimeForm.Text (pretty z +:+ String c r))))
      = Num z.
Proof.
  intros now other. unfold TimeForm.entry_of.
  cbn [NewEntry.hours NewEntry.minutes TimeForm.hours TimeForm.minutes
       TimeForm.to_string].
  by rewrite parseInt_pretty_app.
Qed.

Lemma parseInt_reads_integer_prefix_witness :
  Z.abs 1 <= 2 ^ 53 ∧ is_digit "e" = false
  ∧ NewEntry.hours
      (TimeForm.entry_of jan1_2025
         (TimeForm.mk (TimeForm.Text "1e3") (TimeForm.Text "0")))
    = Num 1.
Proof.
  split_and!; [lia|by vm_compute|].
  apply (parseInt_reads_integer_prefix 1 "e" "3"); [lia|by vm_compute].
Defined.

(** X2: text whose first character is an ASCII character that is neither
    white space, nor a sign, nor a digit is not read at all: the form
    then submits [NaN].  This is the case of a leading decimal point. *)
Theorem parseInt_needs_a_leading_digit (c : ascii) (r : string)
    (Hascii : (N_of_ascii c < 128)%N)
    (Hspace : is_white_space c = false) (Hdigit : is_digit c = false)
    (Hminus : c ≠ "-"%char) (Hplus : c ≠ "+"%char) :
  parseInt (String c r) = NaN
  ∧ ∀ now m,
      NewEntry.hours
        (TimeForm.entry_of now (TimeForm.mk (TimeForm.Text (String c r)) m))
      = NaN.
Proof.
  assert (parseInt (String c r) = NaN) as Hnan; [|by split].
  destruct c as [[] [] [] [] [] [] [] []];
    first [ discriminate Hspace | discriminate Hdigit
          | by destruct Hminus | by destruct Hplus | reflexivity ].
Qed.

Lemma parseInt_needs_a_leading_digit_witness :
  is_white_space "." = false ∧ is_digit "." = false ∧ parseInt ".5" = NaN.
Proof.
  split_and!; [by vm_compute..|].
  apply (parseInt_needs_a_leading_digit "." "5"); by vm_compute.
Defined.

(** X3: the round trip of the edit form.  A form mounted on an entry
    whose hours and minutes print in plain digits, submitted untouched,
    hands its parent an entry with the same hours and minutes ([NaN] goes
    through the text [NaN] and comes back as [NaN]), stamped with the
    clock reading of the submission, and its two fields are empty
    afterwards. *)
Theorem untouched_edit_form_round_trip {W : Type}
    (onSubmit : NewEntry.t → W → W) (e : Entry.t) (now : Date) (w : W)
    (Hh : prints_plain (Entry.hours e)) (Hm : prints_plain (Entry.minutes e)) :
  TimeForm.handleSubmit onSubmit now (TimeForm.init (Some e)) w
  = (TimeForm.init None,
     onSubmit (NewEntry.mk (Entry.hours e) (Entry.minutes e) now) w).
Proof.
  unfold TimeForm.handleSubmit.
  by rewrite prefilled_form_reads_back.
Qed.

Lemma untouched_edit_form_round_trip_witness :
  TimeForm.handleSubmit (λ entry l, entry :: l) jan1_2025
    (TimeForm.init (Some first_entry)) []
  = (TimeForm.init None, [NewEntry.mk (Num 1) (Num 0) jan1_2025]).
Proof.
  apply (untouched_edit_form_round_trip (λ entry l, entry :: l)
           first_entry jan1_2025 []); by vm_compute.
Defined.

(** * The page as a whole *)

Lemma run_snoc (evs : list Page.event) (ev : Page.event) (p : Page.state) :
  Page.run (evs ++ [ev]) p = Page.step ev (Page.run evs p).
Proof. unfold Page.run. by rewrite fold_left_app. Qed.

Lemma run_app (evs1 evs2 : list Page.event) (p : Page.state) :
  Page.run (evs1 ++ evs2) p = Page.run evs2 (Page.run evs1 p).
Proof. unfold Page.run. by rewrite fold_left_app. Qed.

(** What an event can do to the controller when nothing is being edited:
    nothing, one creation, or one deletion. *)
Lemma step_world (ev : Page.event) (p : Page.state) :
  editingEntry (app (Page.world p)) = None →
  Page.world (Page.step ev p) = Page.world p
  ∨ (∃ entry,
       Page.world (Page.step ev p)
       = loadEntries (mk_world (addEntry entry (db (Page.world p))).1
                               (app (Page.world p))))
  ∨ (∃ k,
       Page.world (Page.step ev p)
       = loadEntries (mk_world (deleteEntry k (db (Page.world p)))
                               (app (Page.world p)))).
Proof.
  intros Hedit. destruct ev as [v|v|now|n]; simpl.
  - by left.
  - by left.
  - right; left. exists (TimeForm.entry_of now (Page.form p)).
    unfold submit, TimeForm.handleSubmit. simpl.
    by apply handleAddEntry_create.
  - destruct (TimeList.rows (entries (app (Page.world p))) !! n) as [r|]; [|by left].
    right; right. by exists (TimeList.button r).
Qed.

Lemma loadEntries_synced (w : World) :
  entries (app (loadEntries w)) = (IDB.sorted_records (db (loadEntries w))).*2.
Proof. done. Qed.

(** The three facts that every event preserves. *)
Lemma step_invariant (ev : Page.event) (p : Page.state) :
  let w := Page.world p in
  let w' := Page.world (Page.step ev p) in
  editingEntry (app w) = None →
  entries (app w) = (IDB.sorted_records (db w)).*2 →
  editingEntry (app w') = None
  ∧ entries (app w') = (IDB.sorted_records (db w')).*2
  ∧ (IDB.wf (db w) → IDB.wf (db w')).
Proof.
  intros w w' Hedit Hsync. subst w w'.
  destruct (step_world ev p Hedit) as [->|[[entry ->]|[k ->]]].
  - done.
  - split_and!; [done|apply loadEntries_synced|].
    intros Hw. by apply (IDBFacts.wf_add entry) in Hw.
  - split_and!; [done|apply loadEntries_synced|].
    intros Hw. by apply (IDBFacts.wf_delete k) in Hw.
Qed.

Lemma run_invariant (evs : list Page.event) (db0 : IDB.ObjectStore) :
  let w := Page.world (Page.run evs (Page.start db0)) in
  editingEntry (app w) = None
  ∧ entries (app w) = (IDB.sorted_records (db w)).*2
  ∧ (IDB.wf db0 → IDB.wf (db w)).
Proof.
  induction evs as [|ev evs IH] using rev_ind; [done|].
  rewrite run_snoc. destruct IH as (Hedit & Hsync & Hwf).
  destruct (step_invariant ev _ Hedit Hsync) as (? & ? & Hwf').
  split_and!; [done..|]. intros Hw. by apply Hwf', Hwf.
Qed.

(** In a well-formed store the listing carries each key as the [id] of its
    record. *)
Lemma sorted_records_ids (s : IDB.ObjectStore) :
  IDB.wf s → Entry.id <$> (IDB.sorted_records s).*2 = (IDB.sorted_records s).*1.
Proof.
  intros Hs.
  assert (∀ p, p ∈ IDB.sorted_records s → Entry.id p.2 = p.1) as Hid.
  { intros [j e] Hp%IDBFacts.sorted_records_elem_of. by apply Hs in Hp as [? _]. }
  induction (IDB.sorted_records s) as [|p l IH]; [done|].
  rewrite !fmap_cons, IH by (intros; apply Hid; by right).
  f_equal. apply Hid. left.
Qed.

(** X4: nothing on the page starts an edit.  The list renders no control
    that calls [onEdit], so whatever the user types, saves or deletes, no
    entry is ever marked as being edited and every save takes the
    creation path. *)
Theorem no_edit_is_ever_in_progress (evs : list Page.event)
    (db0 : IDB.ObjectStore) (now : Date) :
  let p := Page.run evs (Page.start db0) in
  editingEntry (app (Page.world p)) = None
  ∧ IDB.served (db (Page.world (Page.step (Page.SubmitForm now) p)))
    = IDB.served (db (Page.world p))
      ++ [IDB.Add (TimeForm.entry_of now (Page.form p)); IDB.GetAll]
  ∧ ∀ e, IDB.Put e ∈ IDB.served (db (Page.world p)) → IDB.Put e ∈ IDB.served db0.
Proof.
  intros p. subst p.
  destruct (run_invariant evs db0) as (Hedit & _ & _).
  split_and!; [done| |].
  - simpl. unfold submit, TimeForm.handleSubmit. simpl.
    rewrite (handleAddEntry_create _ _ Hedit). simpl. by rewrite <-app_assoc.
  - intros e. induction evs as [|ev evs IH] using rev_ind.
    { simpl. rewrite elem_of_app, list_elem_of_singleton.
      by intros [?|?]. }
    destruct (run_invariant evs db0) as (Hedit' & _ & _).
    rewrite run_snoc.
    destruct (step_world ev _ Hedit') as [->|[[entry ->]|[k ->]]];
      [by apply IH|..]; simpl;
      rewrite !elem_of_app, !list_elem_of_singleton;
      (intros [[?|?]|?]; [by apply IH|done|done]).
Qed.

(** X5: after every event the list held by the controller is exactly the
    stored collection, in ascending order of the key: the page never
    shows a stale or partial list. *)
Theorem list_mirrors_the_store (evs : list Page.event) (db0 : IDB.ObjectStore) :
  let w := Page.world (Page.run evs (Page.start db0)) in
  entries (app w) = (IDB.sorted_records (db w)).*2
  ∧ ∀ e, e ∈ entries (app w) ↔ ∃ k, IDB.records (db w) !! k = Some e.
Proof.
  intros w. destruct (run_invariant evs db0) as (_ & Hsync & _).
  split; [done|]. intros e. fold w in Hsync. rewrite Hsync, list_elem_of_fmap.
  split.
  - intros ([k e'] & -> & Hin). exists k. by apply IDBFacts.sorted_records_elem_of.
  - intros [k Hk]. exists (k, e). split; [done|].
    by apply IDBFacts.sorted_records_elem_of.
Qed.

(** X6: over a well-formed store the rows of the list always carry
    pairwise distinct keys, in strictly ascending order, and the button
    of a row hands the [id] of that row's entry to [onDelete]. *)
Theorem rows_have_distinct_ascending_keys (evs : list Page.event)
    (db0 : IDB.ObjectStore) (Hwf : IDB.wf db0) :
  let rows := TimeList.rows (entries (app (Page.world (Page.run evs (Page.start db0))))) in
  StronglySorted Z.lt (TimeList.key <$> rows)
  ∧ NoDup (TimeList.key <$> rows)
  ∧ TimeList.button <$> rows = TimeList.key <$> rows
  ∧ length rows
    = size (IDB.records (db (Page.world (Page.run evs (Page.start db0))))).
Proof.
  intros rows. subst rows.
  destruct (run_invariant evs db0) as (_ & Hsync & Hw). specialize (Hw Hwf).
  set (w := Page.world (Page.run evs (Page.start db0))) in *.
  assert (TimeList.key <$> TimeList.rows (entries (app w))
          = (IDB.sorted_records (db w)).*1) as Hkeys.
  { unfold TimeList.rows. rewrite <-list_fmap_compose, Hsync.
    by rewrite <-sorted_records_ids. }
  assert (StronglySorted Z.lt (TimeList.key <$> TimeList.rows (entries (app w))))
    as Hsorted by (rewrite Hkeys; apply IDBFacts.sorted_records_keys).
  split_and!; [done| | |].
  - rewrite Hkeys. unfold IDB.sorted_records. rewrite merge_sort_Permutation.
    apply NoDup_fst_map_to_list.
  - unfold TimeList.rows. by rewrite <-!list_fmap_compose.
  - unfold TimeList.rows. rewrite length_fmap, Hsync, length_fmap.
    unfold IDB.sorted_records. rewrite merge_sort_Permutation.
    apply length_map_to_list.
Qed.

Lemma rows_have_distinct_ascending_keys_witness :
  IDB.wf IDB.created
  ∧ NoDup (TimeList.key
           <$> TimeList.rows
                 (entries (app (Page.world
                    (Page.run [Page.SubmitForm march15_2024; Page.SubmitForm jan1_2025]
                       (Page.start IDB.created)))))).
Proof.
  assert (IDB.wf IDB.created) as Hw by (apply wf_by_evaluation; by vm_compute).
  split; [done|].
  apply (rows_have_distinct_ascending_keys
           [Page.SubmitForm march15_2024; Page.SubmitForm jan1_2025]
           IDB.created Hw).
Defined.

(** The same three facts carry over from any page state that has them. *)
Lemma run_invariant_from (evs : list Page.event) (p : Page.state) :
  editingEntry (app (Page.world p)) = None →
  entries (app (Page.world p)) = (IDB.sorted_records (db (Page.world p))).*2 →
  IDB.wf (db (Page.world p)) →
  let w := Page.world (Page.run evs p) in
  editingEntry (app w) = None
  ∧ entries (app w) = (IDB.sorted_records (db w)).*2
  ∧ IDB.wf (db w).
Proof.
  intros Hedit Hsync Hwf. induction evs as [|ev evs IH] using rev_ind; [done|].
  rewrite run_snoc. destruct IH as (Hedit' & Hsync' & Hwf').
  destruct (step_invariant ev _ Hedit' Hsync') as (? & ? & Hstep).
  split_and!; [done..|]. by apply Hstep.
Qed.

(** One event, seen from the records: each stays as it is or goes away,
    no key below the generator comes into use, the generator never moves
    back. *)
Lemma step_records (ev : Page.event) (p : Page.state) :
  let s := db (Page.world p) in
  let s' := db (Page.world (Page.step ev p)) in
  editingEntry (app (Page.world p)) = None →
  IDB.wf s →
  (∀ k e, IDB.records s !! k = Some e →
     IDB.records s' !! k = Some e ∨ IDB.records s' !! k = None)
  ∧ (∀ k, k < IDB.keyGenerator s → IDB.records s !! k = None →
       IDB.records s' !! k = None)
  ∧ IDB.keyGenerator s <= IDB.keyGenerator s'.
Proof.
  intros s s' Hedit Hwf. subst s s'.
  destruct (step_world ev p Hedit) as [->|[[entry ->]|[k0 ->]]]; simpl.
  - split_and!; [by left|done|lia].
  - split_and!; [|  |lia].
    + intros k e Hk. left. rewrite lookup_insert_ne; [done|].
      apply Hwf in Hk. lia.
    + intros k Hlt Hk. rewrite lookup_insert_ne; [done|lia].
  - split_and!; [| |lia].
    + intros k e Hk. destruct (decide (k0 = k)) as [->|Hne].
      * right. apply lookup_delete_eq.
      * left. by rewrite lookup_delete_ne.
    + intros k _ Hk. apply lookup_delete_None. by right.
Qed.

(** X7: through the page a stored record is never modified: from one
    moment to any later one it is still there unchanged or it has been
    deleted, and a key that was handed out and is free again is never
    used a second time, since the key generator only moves forward. *)
Theorem records_are_written_once (evs1 evs2 : list Page.event)
    (db0 : IDB.ObjectStore) (Hwf : IDB.wf db0) :
  let s1 := db (Page.world (Page.run evs1 (Page.start db0))) in
  let s2 := db (Page.world (Page.run (evs1 ++ evs2) (Page.start db0))) in
  (∀ k e, IDB.records s1 !! k = Some e →
     IDB.records s2 !! k = Some e ∨ IDB.records s2 !! k = None)
  ∧ (∀ k, k < IDB.keyGenerator s1 → IDB.records s1 !! k = None →
       IDB.records s2 !! k = None)
  ∧ IDB.keyGenerator s1 <= IDB.keyGenerator s2.
Proof.
  intros s1 s2. subst s1 s2. rewrite run_app.
  destruct (run_invariant evs1 db0) as (Hedit & Hsync & Hw). specialize (Hw Hwf).
  set (p := Page.run evs1 (Page.start db0)) in *.
  induction evs2 as [|ev evs2 IH] using rev_ind.
  { split_and!; [by left|done|done]. }
  rewrite run_snoc. destruct IH as (Hkeep & Hfree & Hgen).
  destruct (run_invariant_from evs2 p Hedit Hsync Hw) as (Hedit2 & _ & Hw2).
  destruct (step_records ev _ Hedit2 Hw2) as (Hkeep' & Hfree' & Hgen').
  split_and!; [| |lia].
  - intros k e Hk. destruct (Hkeep k e Hk) as [Hk2|Hk2].
    + by apply Hkeep'.
    + right. apply Hfree'; [|done]. apply Hw in Hk. lia.
  - intros k Hlt Hk. apply Hfree'; [lia|]. by apply Hfree.
Qed.

Lemma records_are_written_once_witness :
  IDB.wf IDB.created
  ∧ IDB.keyGenerator
      (db (Page.world
             (Page.run ([Page.SubmitForm march15_2024] ++ [Page.ClickDelete 0])
                (Page.start IDB.created))))
    >= 2.
Proof.
  assert (IDB.wf IDB.created) as Hw by (apply wf_by_evaluation; by vm_compute).
  split; [done|].
  destruct (records_are_written_once [Page.SubmitForm march15_2024]
              [Page.ClickDelete 0] IDB.created Hw) as (_ & _ & Hgen).
  revert Hgen. by vm_compute.
Defined.

Lemma sorted_records_NoDup (s : IDB.ObjectStore) : NoDup (IDB.sorted_records s).
Proof.
  unfold IDB.sorted_records. rewrite merge_sort_Permutation. apply NoDup_map_to_list.
Qed.

(** In a well-formed store a created record goes to the end of the listing. *)
Lemma sorted_records_add (entry : NewEntry.t) (s : IDB.ObjectStore) :
  IDB.wf s →
  IDB.sorted_records (IDB.add entry s).1
  = IDB.sorted_records s
    ++ [(IDB.keyGenerator s, with_id (IDB.keyGenerator s) entry)].
Proof.
  intros Hs. set (g := IDB.keyGenerator s).
  assert (∀ p, p ∈ IDB.sorted_records s → p.1 < g) as Hlt.
  { intros [j e] Hp%IDBFacts.sorted_records_elem_of. by apply Hs in Hp as [_ ?]. }
  assert (∀ p, p ∈ IDB.sorted_records (IDB.add entry s).1
               ↔ p ∈ IDB.sorted_records s ++ [(g, with_id g entry)]) as Hiff.
  { intros [j e]. rewrite elem_of_app, list_elem_of_singleton,
      !IDBFacts.sorted_records_elem_of. simpl. rewrite lookup_insert_Some.
    split.
    - intros [[<- <-]|[_ ?]]; [by right|by left].
    - intros [Hj|[= -> ->]]; [right|by left]. split; [|done].
      apply Hs in Hj. fold g in Hj. lia. }
  apply StronglySorted_unique_strong with (R := IDB.key_le).
  - intros [k1 e1] [k2 e2] H1 H2%Hiff Hle1 Hle2.
    apply IDBFacts.sorted_records_elem_of in H1, H2.
    unfold IDB.key_le in *. simpl in *.
    assert (k1 = k2) as -> by lia. congruence.
  - apply IDBFacts.sorted_records_sorted.
  - apply StronglySorted_app_2.
    + intros p q Hp ->%list_elem_of_singleton. apply Hlt in Hp.
      unfold IDB.key_le. simpl. lia.
    + apply IDBFacts.sorted_records_sorted.
    + repeat constructor.
  - apply NoDup_Permutation; [apply sorted_records_NoDup| |done].
    apply NoDup_app. split_and!; [apply sorted_records_NoDup| |apply NoDup_singleton].
    intros p Hp ->%list_elem_of_singleton. apply Hlt in Hp. simpl in Hp. lia.
Qed.

(** Saving from a page state in which nothing is being edited. *)
Lemma log_time_step (x : string * string * Date) (p : Page.state) :
  editingEntry (app (Page.world p)) = None →
  IDB.wf (db (Page.world p)) →
  let g := IDB.keyGenerator (db (Page.world p)) in
  let q := Page.run (Page.log_time x) p in
  entries (app (Page.world q))
  = (IDB.sorted_records (db (Page.world p))).*2
    ++ [Entry.mk g (parseInt x.1.1) (parseInt x.1.2) x.2]
  ∧ IDB.keyGenerator (db (Page.world q)) = g + 1
  ∧ Page.form q = TimeForm.mk (TimeForm.Text "") (TimeForm.Text "").
Proof.
  intros Hedit Hwf g q. subst g q. destruct x as [[h m] now].
  unfold Page.log_time, Page.run. cbn [fold_left Page.step fst snd].
  unfold submit, TimeForm.handleSubmit. cbn [Page.form Page.world fst snd].
  rewrite (handleAddEntry_create _ _ Hedit).
  destruct (loadEntries_spec
              (mk_world (addEntry (TimeForm.entry_of now
                 (TimeForm.setMinutes m (TimeForm.setHours h (Page.form p))))
                 (db (Page.world p))).1 (app (Page.world p)))) as (Hdb & Hlist & _).
  cbn [Page.world Page.form]. rewrite Hlist, Hdb. cbn [db].
  split_and!; [|done|done].
  unfold addEntry. rewrite sorted_records_add by done. by rewrite fmap_app.
Qed.

(** X8: starting on an empty database, logging a sequence of durations
    gives a list with exactly one entry per submission, in the order of
    submission, with the ids 1, 2, 3, ... and with the hours and minutes
    read by [parseInt] and the clock reading of each submission; the form
    is left empty. *)
Theorem logged_entries_read_back (l : list (string * string * Date)) :
  let p := Page.run (l ≫= Page.log_time) (Page.start IDB.created) in
  entries (app (Page.world p))
  = imap (λ i x, Entry.mk (Z.of_nat i + 1) (parseInt x.1.1) (parseInt x.1.2) x.2) l
  ∧ length (entries (app (Page.world p))) = length l
  ∧ IDB.keyGenerator (db (Page.world p)) = Z.of_nat (length l) + 1.
Proof.
  intros p. subst p.
  assert (∀ l (p : Page.state) (g : Z),
            editingEntry (app (Page.world p)) = None →
            entries (app (Page.world p))
            = (IDB.sorted_records (db (Page.world p))).*2 →
            IDB.wf (db (Page.world p)) →
            IDB.keyGenerator (db (Page.world p)) = g →
            let q := Page.run (l ≫= Page.log_time) p in
            entries (app (Page.world q))
            = entries (app (Page.world p))
              ++ imap (λ i x, Entry.mk (Z.of_nat i + g) (parseInt x.1.1)
                                (parseInt x.1.2) x.2) l
            ∧ IDB.keyGenerator (db (Page.world q)) = Z.of_nat (length l) + g)
    as Hgen.
  { clear l. induction l as [|x l IH]; intros p g Hedit Hsync Hwf Hg q; subst q.
    { simpl. by rewrite app_nil_r. }
    rewrite bind_cons, run_app.
    destruct (log_time_step x p Hedit Hwf) as (Hlist & Hg' & _).
    destruct (run_invariant_from (Page.log_time x) p Hedit Hsync Hwf)
      as (Hedit' & Hsync' & Hwf').
    destruct (IH _ (g + 1) Hedit' Hsync' Hwf') as [-> ->]; [lia|].
    rewrite Hlist, <-Hsync, Hg, <-app_assoc. split; [|simpl length; lia].
    f_equal. simpl. f_equal. apply imap_ext. intros i y _. simpl.
    f_equal. lia. }
  destruct (Hgen l (Page.start IDB.created) 1) as [Hlist Hg]; [done..| |done|].
  { apply IDBFacts.wf_created. }
  rewrite Hlist, Hg.
  change (entries (app (Page.world (Page.start IDB.created)))) with (@nil Entry.t).
  rewrite app_nil_l. split_and!; [done| |done]. apply length_imap.
Qed.

(** Deleting, seen from a well-formed store. *)
Lemma delete_removes_exactly_one_aux (k : Z) (w : World) :
  IDB.wf (db w) →
  entries (app (handleDeleteEntry k w))
  = filter (λ e, Entry.id e ≠ k) (IDB.sorted_records (db w)).*2
  ∧ IDB.records (db (handleDeleteEntry k w)) = delete k (IDB.records (db w)).
Proof.
  intros Hw. unfold handleDeleteEntry, deleteEntry. simpl. split; [|done].
  rewrite <-IDBFacts.filter_by_key_or_id by done.
  f_equal. apply (IDBFacts.sorted_records_delete k (db w)).
Qed.

Lemma filter_out_unique_id (l : list Entry.t) (n : nat) (e : Entry.t) :
  NoDup (Entry.id <$> l) →
  l !! n = Some e →
  filter (λ x, Entry.id x ≠ Entry.id e) l = delete n l.
Proof.
  revert n. induction l as [|y l IH]; intros n Hnd Hn; [done|].
  rewrite fmap_cons in Hnd. apply NoDup_cons in Hnd as [Hy Hnd].
  destruct n as [|n]; simpl in Hn.
  - injection Hn as ->. rewrite filter_cons_False by (by intros ?). simpl.
    clear IH Hnd. induction l as [|z l IHl]; [done|].
    rewrite fmap_cons in Hy. apply not_elem_of_cons in Hy as [Hne Hy].
    rewrite filter_cons_True by done. f_equal. by apply IHl.
  - rewrite filter_cons_True.
    + simpl. f_equal. by apply IH.
    + intros Heq. apply Hy. rewrite Heq. apply list_elem_of_fmap.
      exists e. split; [done|]. by eapply list_elem_of_lookup_2.
Qed.

(** X9: the [Eliminar] button of a row removes that row and no other:
    after the click the list is the former list without the entry at that
    position, and the stored collection lost exactly that entry's key. *)
Theorem delete_button_removes_its_row (evs : list Page.event)
    (db0 : IDB.ObjectStore) (n : nat) (e : Entry.t) (Hwf : IDB.wf db0) :
  let p := Page.run evs (Page.start db0) in
  let q := Page.step (Page.ClickDelete n) p in
  entries (app (Page.world p)) !! n = Some e →
  entries (app (Page.world q)) = delete n (entries (app (Page.world p)))
  ∧ IDB.records (db (Page.world q))
    = delete (Entry.id e) (IDB.records (db (Page.world p)))
  ∧ Page.form q = Page.form p.
Proof.
  intros p q Hn. subst q.
  destruct (run_invariant evs db0) as (_ & Hsync & Hw). specialize (Hw Hwf).
  fold p in Hsync, Hw.
  assert (TimeList.rows (entries (app (Page.world p))) !! n
          = Some (TimeList.mk (Entry.id e)
                    (num_to_string (Entry.hours e) +:+ ":"
                       +:+ num_to_string (Entry.minutes e))
                    (Entry.createdAt e) (Entry.id e))) as Hrow.
  { unfold TimeList.rows. by rewrite list_lookup_fmap, Hn. }
  cbn [Page.step]. rewrite Hrow. cbn [Page.world Page.form TimeList.button].
  destruct (delete_removes_exactly_one_aux (Entry.id e) (Page.world p) Hw)
    as (Hlist & Hrec).
  split_and!; [|done|done].
  rewrite Hlist, <-Hsync. apply filter_out_unique_id; [|done].
  rewrite Hsync, sorted_records_ids by done.
  unfold IDB.sorted_records. rewrite merge_sort_Permutation.
  apply NoDup_fst_map_to_list.
Qed.

Lemma delete_button_removes_its_row_witness :
  IDB.wf IDB.created
  ∧ entries (app (Page.world
       (Page.run [Page.SubmitForm march15_2024; Page.SubmitForm jan1_2025]
          (Page.start IDB.created)))) !! 0%nat
    = Some (Entry.mk 1 NaN NaN march15_2024)
  ∧ entries (app (Page.world
       (Page.step (Page.ClickDelete 0)
          (Page.run [Page.SubmitForm march15_2024; Page.SubmitForm jan1_2025]
             (Page.start IDB.created)))))
    = [Entry.mk 2 NaN NaN jan1_2025].
Proof.
  assert (IDB.wf IDB.created) as Hw by (apply wf_by_evaluation; by vm_compute).
  assert (entries (app (Page.world
       (Page.run [Page.SubmitForm march15_2024; Page.SubmitForm jan1_2025]
          (Page.start IDB.created)))) !! 0%nat
    = Some (Entry.mk 1 NaN NaN march15_2024)) as Hrow by by vm_compute.
  split_and!; [done|done|].
  destruct (delete_button_removes_its_row
              [Page.SubmitForm march15_2024; Page.SubmitForm jan1_2025]
              IDB.created 0 (Entry.mk 1 NaN NaN march15_2024) Hw Hrow) as (-> & _).
  by vm_compute.
Defined.

(** * Further properties of the aggregation views *)

Lemma add_to_bucket_cons (k' : string) (v' : number) (o : JSObject)
    (k : string) (a : number) :
  add_to_bucket ((k', v') :: o) k a
  = if decide (k' = k)
    then (k, num_add (if falsy (Some v') then Num 0 else v') a) :: o
    else (k', v') :: add_to_bucket o k a.
Proof.
  unfold add_to_bucket. cbn [obj_get].
  destruct (decide (k' = k)) as [->|Hne].
  - destruct (falsy (Some v'));
      repeat first [ rewrite decide_True by done
                   | progress cbn [obj_set obj_get to_number] ]; done.
  - destruct (falsy (obj_get o k));
      repeat first [ rewrite decide_False by done
                   | progress cbn [obj_set obj_get to_number] ]; done.
Qed.

(** Adding an integer amount raises the sum of all buckets by that amount. *)
Lemma add_to_bucket_total (o : JSObject) (k : string) (a : Z) :
  Forall (λ v, v ≠ NaN) o.*2 →
  ∃ zs zs' : list Z,
    o.*2 = Num <$> zs ∧ (add_to_bucket o k (Num a)).*2 = Num <$> zs'
    ∧ foldr Z.add 0 zs' = foldr Z.add 0 zs + a.
Proof.
  induction o as [|[k' v'] o IH]; intros Hall.
  { exists [], [a]. rewrite add_to_bucket_nil. split_and!; [done..|simpl; lia]. }
  rewrite fmap_cons in Hall. apply Forall_cons in Hall as [Hv Hall].
  destruct v' as [|z]; [done|]. destruct (IH Hall) as (zs & zs' & Hzs & Hzs' & Hsum).
  rewrite add_to_bucket_cons. destruct (decide (k' = k)) as [->|Hne].
  - exists (z :: zs), (z + a :: zs). rewrite !fmap_cons, Hzs. simpl.
    split_and!; [done| |lia]. case_bool_decide; [subst z|]; done.
  - exists (z :: zs), (z :: zs'). rewrite !fmap_cons, Hzs, Hzs'. simpl.
    split_and!; [done..|lia].
Qed.

Lemma accumulate_total (keyOf : Entry.t → string) (entries : list Entry.t) :
  ∀ o : JSObject,
    Forall (λ v, v ≠ NaN) o.*2 →
    Forall int_entry entries →
    num_sum (accumulate keyOf o entries).*2
    = num_add (num_sum o.*2) (num_sum (entry_minutes <$> entries)).
Proof.
  induction entries as [|e es IH]; intros o Ho Hint.
  { simpl. destruct (not_NaN_Num _ Ho) as [zs ->]. rewrite num_sum_Num. simpl.
    f_equal. lia. }
  apply Forall_cons in Hint as [He Hint].
  pose proof (entry_minutes_int e He) as Ha.
  destruct (entry_minutes e) as [|a] eqn:Hae; [done|].
  destruct (add_to_bucket_total o (keyOf e) a Ho) as (zs & zs' & Hzs & Hzs' & Hsum).
  unfold accumulate in *. cbn [fold_left]. rewrite Hae, IH; [|rewrite Hzs'|done].
  - rewrite fmap_cons, Hae, Hzs', Hzs, !num_sum_Num.
    change (num_sum (Num a :: (entry_minutes <$> es)))
      with (num_add (Num a) (num_sum (entry_minutes <$> es))).
    rewrite num_add_assoc. simpl. by rewrite Hsum.
  - apply Forall_fmap, Forall_forall. by intros.
Qed.

Lemma Object_keys_Permutation (o : JSObject) : Object_keys o ≡ₚ o.*1.
Proof.
  unfold Object_keys. rewrite merge_sort_Permutation.
  assert (pretty <$> omap array_index o.*1
          = filter (λ k, ¬ array_index k = None) o.*1) as ->.
  { induction (o.*1) as [|k l IH]; [done|].
    rewrite omap_cons, filter_cons.
    destruct (array_index k) as [n|] eqn:Hn.
    - apply array_index_Some in Hn as [Hn _].
      rewrite decide_True by done. by rewrite fmap_cons, Hn, IH.
    - by rewrite decide_False by (by intros ?). }
  rewrite (comm (++)). apply filter_app_complement.
Qed.



Lemma array_index_negative (y : Z) : y < 0 → array_index (pretty y) = None.
Proof.
  intros Hy. destruct (array_index _) as [n|] eqn:Hn; [|done].
  apply array_index_Some in Hn as [Hk Hn].
  apply (f_equal all_digits) in Hk. rewrite all_digits_pretty in Hk by lia.
  destruct (pretty_shape y) as (c & r & _ & _ & [[? _]|[_ E]]); [lia|].
  by rewrite E in Hk.
Qed.

Lemma Object_keys_integers (o : JSObject) (ys : list Z) :
  o.*1 = pretty <$> ys →
  Forall (λ y, y < 2 ^ 32 - 1) ys →
  Object_keys o
  = (pretty <$> merge_sort Z.le (filter (λ y, 0 <= y) ys))
    ++ (pretty <$> filter (λ y, y < 0) ys).
Proof.
  intros Ho Hall. unfold Object_keys. rewrite Ho. clear Ho.
  assert (omap array_index (pretty <$> ys) = filter (λ y, 0 <= y) ys
          ∧ filter (λ k, array_index k = None) (pretty <$> ys)
            = pretty <$> filter (λ y, y < 0) ys) as [-> ->]; [|done].
  induction Hall as [|y l Hy _ [IH1 IH2]]; [done|].
  rewrite fmap_cons, omap_cons, !filter_cons.
  destruct (decide (0 <= y)) as [Hnn|Hneg].
  - rewrite array_index_pretty by lia.
    rewrite decide_False by done. rewrite decide_False by lia. by rewrite IH1, IH2.
  - rewrite array_index_negative by lia.
    rewrite decide_True by done. rewrite decide_True by lia.
    by rewrite IH1, fmap_cons, IH2.
Qed.

Section MoreAggregationClaims.

Variable getFullYear : Date → Z.
Variable getMonth : Date → Z.

Local Abbreviation monthKey := (monthKey getFullYear getMonth).
Local Abbreviation yearKey := (yearKey getFullYear).
Local Abbreviation totalsByMonth := (totalsByMonth getFullYear getMonth).
Local Abbreviation totalsByYear := (totalsByYear getFullYear).
Local Abbreviation getTotalTimeByMonth := (getTotalTimeByMonth getFullYear getMonth).
Local Abbreviation getTotalTimeByYear := (getTotalTimeByYear getFullYear).
Local Abbreviation year_of e := (getFullYear (Entry.createdAt e)).

(** X10: with integer durations within the exact range no minute is lost
    or counted twice: the month buckets add up to the sum of
    [hours*60 + minutes] over all entries, and so do the year buckets;
    that sum is an integer of at most 2^53 in magnitude. *)
Theorem buckets_add_up_to_the_whole (entries : list Entry.t)
    (Hint : Forall int_entry entries) (Hrange : exact_range entries) :
  num_sum (totalsByMonth entries).*2 = num_sum (entry_minutes <$> entries)
  ∧ num_sum (totalsByYear entries).*2 = num_sum (entry_minutes <$> entries)
  ∧ ∃ z : Z, num_sum (entry_minutes <$> entries) = Num z ∧ Z.abs z <= 2 ^ 53.
Proof.
  assert (∀ a, a ≠ NaN → num_add (Num 0) a = a) as Hzero
    by (intros [|z] ?; done).
  assert (∃ z : Z, num_sum (entry_minutes <$> entries) = Num z
                   ∧ Z.abs z <= 2 ^ 53) as (z & Hz & Hbound).
  { pose proof (num_sum_magnitude entries) as Hmag.
    assert (Forall (λ a, a ≠ NaN) (entry_minutes <$> entries)) as Hall.
    { apply Forall_fmap, Forall_forall. intros e He. apply entry_minutes_int.
      by eapply Forall_forall in Hint. }
    apply not_NaN_Num in Hall as [zs Hzs]. rewrite Hzs, num_sum_Num in *.
    eexists. split; [done|]. unfold exact_range in Hrange. simpl in Hmag. lia. }
  split_and!; [| |by exists z].
  - rewrite totalsByMonth_accumulate, accumulate_total by done.
    apply Hzero. by rewrite Hz.
  - rewrite totalsByYear_accumulate, accumulate_total by done.
    apply Hzero. by rewrite Hz.
Qed.

(** X11: each view lists every bucket once: the keys of its rows are
    pairwise distinct and are exactly the keys of the entries, whatever
    the entries hold. *)
Theorem each_bucket_is_listed_once (entries : list Entry.t) :
  NoDup (li_key <$> getTotalTimeByMonth entries)
  ∧ (∀ k, k ∈ li_key <$> getTotalTimeByMonth entries ↔ k ∈ monthKey <$> entries)
  ∧ NoDup (li_key <$> getTotalTimeByYear entries)
  ∧ (∀ k, k ∈ li_key <$> getTotalTimeByYear entries ↔ k ∈ yearKey <$> entries)
  ∧ (length (getTotalTimeByMonth entries) ≤ length entries)%nat.
Proof.
  assert (li_key <$> getTotalTimeByMonth entries
          = first_seen (monthKey <$> entries)) as Hmonth.
  { etrans; [apply render_keys|]. apply month_keys_first_seen. }
  assert (li_key <$> getTotalTimeByYear entries
          ≡ₚ first_seen (yearKey <$> entries)) as Hyear.
  { assert (li_key <$> getTotalTimeByYear entries
            = Object_keys (totalsByYear entries)) as -> by apply render_keys.
    rewrite Object_keys_Permutation, totalsByYear_accumulate, accumulate_keys.
    simpl. assert (∀ l : list string, filter (λ k, k ∉ []) l = l) as ->; [|done].
    intros l. apply filter_not_elem_of_nil. }
  split_and!.
  - rewrite Hmonth. apply first_seen_NoDup.
  - intros k. by rewrite Hmonth, first_seen_elem_of.
  - rewrite Hyear. apply first_seen_NoDup.
  - intros k. by rewrite Hyear, first_seen_elem_of.
  - rewrite <-(length_fmap li_key), Hmonth, <-(length_fmap monthKey entries).
    generalize (monthKey <$> entries). intros l.
    induction l as [|k l IH]; [done|]. cbn [first_seen length].
    pose proof (length_filter (λ k', k' ≠ k) (first_seen l)). lia.
Qed.


(** X13: a negative total, of entries whose durations stay within the
    exact range, is shown with a negative minutes part, and unless it is
    a whole number of hours the pair shown, read back as
    [hours*60 + minutes], is one hour below the total. *)
Theorem negative_totals_show_an_hour_less (entries : list Entry.t)
    (Hrange : exact_range entries) :
  (∀ r t,
     r ∈ getTotalTimeByMonth entries →
     obj_get (totalsByMonth entries) (li_key r) = Some (Num t) → t < 0 →
     ∃ h m, totalHours r = Num h ∧ minutesLeft r = Num m
       ∧ h = t / 60 ∧ m = - ((- t) mod 60) ∧ -60 < m <= 0
       ∧ (m ≠ 0 → h * 60 + m = t - 60)
       ∧ - 2 ^ 53 <= t)
  ∧ (∀ r t,
     r ∈ getTotalTimeByYear entries →
     obj_get (totalsByYear entries) (li_key r) = Some (Num t) → t < 0 →
     ∃ h m, totalHours r = Num h ∧ minutesLeft r = Num m
       ∧ h = t / 60 ∧ m = - ((- t) mod 60) ∧ -60 < m <= 0
       ∧ (m ≠ 0 → h * 60 + m = t - 60)
       ∧ - 2 ^ 53 <= t).
Proof.
  assert (∀ keyOf r t,
            r ∈ render (accumulate keyOf [] entries) →
            obj_get (accumulate keyOf [] entries) (li_key r) = Some (Num t) →
            t < 0 →
            ∃ h m, totalHours r = Num h ∧ minutesLeft r = Num m
              ∧ h = t / 60 ∧ m = - ((- t) mod 60) ∧ -60 < m <= 0
              ∧ (m ≠ 0 → h * 60 + m = t - 60)
              ∧ - 2 ^ 53 <= t) as Hrow.
  { intros keyOf r t (total & Hk & -> & ->)%render_elem_of Ht Hneg.
    rewrite Hk in Ht. injection Ht as ->. simpl.
    exists (t / 60), (Z.rem t 60).
    assert (Z.rem t 60 = - ((- t) mod 60)) as Hrem.
    { pose proof (Z.rem_opp_l' (- t) 60) as Hopp.
      rewrite Z.opp_involutive in Hopp.
      by rewrite Hopp, Z.rem_mod_nonneg by lia. }
    pose proof (Z.mod_pos_bound (- t) 60). pose proof (Z.div_mod t 60).
    pose proof (Z.mod_pos_bound t 60).
    apply accumulate_magnitude in Hk. unfold exact_range in Hrange.
    simpl in Hk.
    split_and!; [done|done|done|done|lia|lia| |lia].
    intros Hm. rewrite Hrem in Hm |- *.
    destruct (decide (t mod 60 = 0)) as [Hz|Hnz].
    - pose proof (Z.mod_opp_l_z t 60). lia.
    - pose proof (Z.mod_opp_l_nz t 60). lia. }
  split; intros r t; [apply (Hrow monthKey)|apply (Hrow yearKey)].
Qed.

(** X14: the order of the year view in general.  Years from 0 on (below
    2^32 - 1) come first, in ascending order; negative years follow, in
    the order in which each first occurs in the entry list. *)
Theorem year_buckets_order (entries : list Entry.t)
    (Hyears : Forall (λ e, year_of e < 2 ^ 32 - 1) entries) :
  let ys := first_seen ((λ e, year_of e) <$> entries) in
  li_key <$> getTotalTimeByYear entries
  = (pretty <$> merge_sort Z.le (filter (λ y, 0 <= y) ys))
    ++ (pretty <$> filter (λ y, y < 0) ys)
  ∧ StronglySorted Z.lt (merge_sort Z.le (filter (λ y, 0 <= y) ys)).
Proof.
  intros ys. split.
  - etrans; [apply render_keys|]. apply Object_keys_integers.
    + rewrite totalsByYear_accumulate, accumulate_keys. simpl.
      etrans; [apply filter_not_elem_of_nil|].
      subst ys. by rewrite <-(first_seen_fmap pretty), <-list_fmap_compose.
    + apply Forall_forall. intros y Hy.
      apply (proj1 (first_seen_elem_of _ _)) in Hy.
      apply list_elem_of_fmap in Hy as (e & -> & He).
      by eapply Forall_forall in Hyears.
  - apply StronglySorted_le_lt; [|apply StronglySorted_merge_sort; apply _].
    rewrite merge_sort_Permutation. apply NoDup_filter, first_seen_NoDup.
Qed.

End MoreAggregationClaims.

(** ** The added properties at concrete entries (UTC host) *)

Lemma buckets_add_up_witness :
  Forall int_entry sample_entries
  ∧ exact_range sample_entries
  ∧ num_sum (totalsByMonth UTC.getFullYear UTC.getMonth sample_entries).*2
    = Num 285
  ∧ num_sum (totalsByYear UTC.getFullYear sample_entries).*2 = Num 285.
Proof.
  destruct (buckets_add_up_to_the_whole UTC.getFullYear UTC.getMonth
              sample_entries sample_entries_int sample_entries_range)
    as (-> & -> & _).
  split_and!; [exact sample_entries_int|exact sample_entries_range
              |by vm_compute..].
Defined.


Lemma negative_totals_witness :
  exact_range [minus_thirty]
  ∧ ∃ h m,
      getTotalTimeByMonth UTC.getFullYear UTC.getMonth [minus_thirty]
      = [mk_li "2024-3" (Num h) (Num m)]
      ∧ h * 60 + m = -30 - 60.
Proof.
  assert (exact_range [minus_thirty]) as Hrange by by vm_compute.
  split; [done|].
  destruct (negative_totals_show_an_hour_less UTC.getFullYear UTC.getMonth
              [minus_thirty] Hrange) as [Hmonth _].
  assert (getTotalTimeByMonth UTC.getFullYear UTC.getMonth [minus_thirty]
          = [mk_li "2024-3" (Num (-1)) (Num (-30))]) as Hview by by vm_compute.
  destruct (Hmonth (mk_li "2024-3" (Num (-1)) (Num (-30))) (-30))
    as (h & m & Hh & Hm & _ & _ & _ & Hsum & _).
  { rewrite Hview. left. }
  { by vm_compute. }
  { lia. }
  exists h, m. simpl in Hh, Hm. injection Hh as <-. injection Hm as <-.
  split; [done|]. by apply Hsum.
Defined.

Lemma year_buckets_order_witness :
  Forall (λ e, UTC.getFullYear (Entry.createdAt e) < 2 ^ 32 - 1) mixed_years
  ∧ li_key <$> getTotalTimeByYear UTC.getFullYear mixed_years
    = ["2024"; "2025"; "-2"].
Proof.
  assert (Forall (λ e, UTC.getFullYear (Entry.createdAt e) < 2 ^ 32 - 1)
            mixed_years) as Hall by (repeat constructor; by vm_compute).
  split; [done|].
  destruct (year_buckets_order UTC.getFullYear mixed_years Hall) as [-> _].
  by vm_compute.
Defined.

Lemma handlers_keep_wf_witness :
  IDB.wf (db editing_world)
  ∧ IDB.wf (db (handleAddEntry (TimeForm.entry_of jan1_2025 two_and_a_half)
                  editing_world))
  ∧ IDB.wf (db (handleDeleteEntry 1 editing_world)).
Proof.
  assert (IDB.wf (db editing_world)) as Hw
    by (apply wf_by_evaluation; by vm_compute).
  destruct (handlers_keep_wf editing_world Hw) as (_ & Hadd & _ & Hdel).
  split_and!; [done|apply Hadd|apply Hdel].
Defined.

(** * The rollover effect and the opening of the database *)

Section RolloverClaims.

Variable getFullYear : Date → Z.
Variable getMonth : Date → Z.

(** X15: one run of the rollover effect brings the two remembered values
    to the month and year of the clock, writes one console line for each
    value that changed and none otherwise; a second run at the same clock
    reading changes nothing and writes nothing, so the re-render that the
    effect causes does not repeat, and a component mounted at that clock
    reading starts settled. *)
Theorem rollover_settles (now : Date) (c : Calendar) (console : list string) :
  let c1 := (rollover_effect getFullYear getMonth now c console).1 in
  let console1 := (rollover_effect getFullYear getMonth now c console).2 in
  c1 = initial_calendar getFullYear getMonth now
  ∧ rollover_effect getFullYear getMonth now c1 console1 = (c1, console1)
  ∧ (∃ lines, console1 = console ++ lines
       ∧ length lines
         = ((if decide (getMonth now = currentMonth c) then 0 else 1)
            + (if decide (getFullYear now = currentYear c) then 0 else 1))%nat)
  ∧ rollover_effect getFullYear getMonth now
      (initial_calendar getFullYear getMonth now) console
    = (initial_calendar getFullYear getMonth now, console).
Proof.
  assert (∀ log, rollover_effect getFullYear getMonth now
                   (initial_calendar getFullYear getMonth now) log
                 = (initial_calendar getFullYear getMonth now, log)) as Hfix.
  { intros log. unfold rollover_effect, initial_calendar. simpl.
    by rewrite !decide_False by (by intros ?). }
  assert ((rollover_effect getFullYear getMonth now c console).1
          = initial_calendar getFullYear getMonth now) as Hc1.
  { unfold rollover_effect, initial_calendar.
    destruct (decide (getMonth now ≠ currentMonth c)) as [?|Hm%dec_stable],
             (decide (getFullYear now ≠ currentYear c)) as [?|Hy%dec_stable];
      simpl; congruence. }
  intros c1 console1. subst c1 console1. rewrite Hc1.
  split_and!; [done|apply Hfix| |apply Hfix].
  unfold rollover_effect.
  destruct (decide (getMonth now ≠ currentMonth c)) as [?|Hm%dec_stable],
           (decide (getFullYear now ≠ currentYear c)) as [?|Hy%dec_stable];
    simpl;
    repeat first [ rewrite decide_True by done | rewrite decide_False by done ].
  - eexists. by rewrite <-app_assoc.
  - by eexists.
  - by eexists.
  - exists []. by rewrite app_nil_r.
Qed.

End RolloverClaims.

(** X16: opening the database never touches stored data.  A database
    that does not exist yet gets an empty [entries] store; one created
    earlier is opened as it is, with every store and every record it
    holds, so opening again gives the same database; a database of a
    later version does not open. *)
Theorem initDB_keeps_stored_data (d : Database) :
  initDB no_database = Some (mk_database 1 {[STORE_NAME := IDB.created]})
  ∧ (1 < version d → initDB d = None)
  ∧ (version d <= 1 →
       ∃ d', initDB d = Some d'
         ∧ initDB d' = Some d'
         ∧ version d' = 1
         ∧ (∀ name s, objectStores d !! name = Some s →
              objectStores d' !! name = Some s)
         ∧ (∀ name, name ≠ STORE_NAME →
              objectStores d' !! name = objectStores d !! name)
         ∧ (version d < 1 → is_Some (objectStores d' !! STORE_NAME))).
Proof.
  split_and!.
  - done.
  - intros Hv. unfold initDB. by rewrite !decide_False by lia.
  - intros Hv. unfold initDB. destruct (decide (version d < 1)) as [Hnew|Hold].
    + eexists. split; [done|]. simpl. unfold upgrade.
      destruct (decide (is_Some (objectStores d !! STORE_NAME))) as [Hs|Hs].
      * split_and!; [done..|]. by intros _.
      * split_and!; [done|done| | |].
        -- intros name s Hname. rewrite lookup_insert_ne; [done|].
           intros <-. apply Hs. by eexists.
        -- intros name Hname. by rewrite lookup_insert_ne.
        -- intros _. rewrite lookup_insert_eq. by eexists.
    + assert (version d = 1) as Hone by lia. rewrite decide_True by done.
      exists d. rewrite decide_False, decide_True by done.
      split_and!; [done..|]. lia.
Qed.

Lemma initDB_keeps_stored_data_witness :
  version (mk_database 1 {[STORE_NAME := db one_entry_world]}) <= 1
  ∧ initDB (mk_database 1 {[STORE_NAME := db one_entry_world]})
    = Some (mk_database 1 {[STORE_NAME := db one_entry_world]}).
Proof.
  split; [by vm_compute|].
  destruct (initDB_keeps_stored_data
              (mk_database 1 {[STORE_NAME := db one_entry_world]}))
    as (_ & _ & Hopen).
  destruct Hopen as (d' & Hd' & _); [by vm_compute|].
  rewrite Hd'. f_equal. unfold initDB in Hd'. simpl in Hd'. by injection Hd' as <-.
Defined.

(** * Months within a year, and the edit path on a stored entry *)

Section YearOfMonths.

Variable getFullYear : Date → Z.
Variable getMonth : Date → Z.

(** X18: with integer durations within the exact range the total of a
    year is the sum of the totals of its months: the year bucket of an
    entry equals the sum of the month buckets computed from the entries of
    that year, an integer of at most 2^53 in magnitude, and each of these
    month buckets is the one the month view shows for all entries. *)
Theorem year_total_is_sum_of_its_months (entries : list Entry.t) (e : Entry.t)
    (Hint : Forall int_entry entries) (Hrange : exact_range entries)
    (He : e ∈ entries) :
  let of_year :=
    filter (λ x, getFullYear (Entry.createdAt x) = getFullYear (Entry.createdAt e))
      entries in
  obj_get (totalsByYear getFullYear entries) (yearKey getFullYear e)
  = Some (num_sum (totalsByMonth getFullYear getMonth of_year).*2)
  ∧ (∀ k, k ∈ monthKey getFullYear getMonth <$> of_year →
       obj_get (totalsByMonth getFullYear getMonth of_year) k
       = obj_get (totalsByMonth getFullYear getMonth entries) k)
  ∧ exact_range of_year
  ∧ magnitude (num_sum (totalsByMonth getFullYear getMonth of_year).*2)
    <= 2 ^ 53.
Proof.
  intros of_year.
  assert (Forall int_entry of_year) as Hint'.
  { apply Forall_forall. intros x [_ Hx]%list_elem_of_filter.
    by eapply Forall_forall in Hint. }
  assert (obj_get (totalsByYear getFullYear entries) (yearKey getFullYear e)
          = Some (num_sum (totalsByMonth getFullYear getMonth of_year).*2))
    as Hyear.
  { rewrite totalsByYear_accumulate, accumulate_sum by done.
    rewrite decide_True by (apply list_elem_of_fmap; eauto).
    rewrite totalsByMonth_accumulate, accumulate_total by done.
    assert (group (yearKey getFullYear) (yearKey getFullYear e) entries = of_year)
      as ->.
    { unfold group, of_year. apply list_filter_iff. intros x. apply yearKey_inj. }
    f_equal. assert (Forall (λ a, a ≠ NaN) (entry_minutes <$> of_year)) as Hnum.
    { apply Forall_fmap, Forall_forall. intros x Hx. apply entry_minutes_int.
      by eapply Forall_forall in Hint'. }
    apply not_NaN_Num in Hnum as [zs ->]. by rewrite num_sum_Num. }
  unfold exact_range in *.
  split_and!; [exact Hyear| | |].
  - intros k Hk. rewrite !totalsByMonth_accumulate, !accumulate_sum by done.
    rewrite decide_True by done.
    apply list_elem_of_fmap in Hk as (x & -> & Hx).
    pose proof Hx as [Hyx Hin]%list_elem_of_filter.
    rewrite decide_True by (apply list_elem_of_fmap; eauto).
    do 3 f_equal. unfold group, of_year. rewrite list_filter_filter.
    apply list_filter_iff. intros y. split; [tauto|].
    intros Hy. split; [done|].
    apply monthKey_inj in Hy as [Hy _]. congruence.
  - pose proof (total_magnitude_filter
                  (λ x, getFullYear (Entry.createdAt x)
                        = getFullYear (Entry.createdAt e)) entries).
    subst of_year. lia.
  - rewrite totalsByYear_accumulate in Hyear.
    apply accumulate_magnitude in Hyear. lia.
Qed.

End YearOfMonths.

Lemma year_total_is_sum_of_its_months_witness :
  Forall int_entry sample_entries
  ∧ exact_range sample_entries
  ∧ Entry.mk 1 (Num 1) (Num 75) march15_2024 ∈ sample_entries
  ∧ obj_get (totalsByYear UTC.getFullYear sample_entries) "2024" = Some (Num 165).
Proof.
  assert (Entry.mk 1 (Num 1) (Num 75) march15_2024 ∈ sample_entries) as He by left.
  split_and!; [exact sample_entries_int|exact sample_entries_range|done|].
  destruct (year_total_is_sum_of_its_months UTC.getFullYear UTC.getMonth
              sample_entries _ sample_entries_int sample_entries_range He)
    as [Hyear _].
  etrans; [exact Hyear|]. by vm_compute.
Defined.

Lemma sorted_keys_insert_existing (s : IDB.ObjectStore) (entry : Entry.t) :
  is_Some (IDB.records s !! Entry.id entry) →
  (IDB.sorted_records (IDB.put entry s)).*1 = (IDB.sorted_records s).*1.
Proof.
  intros [old Hold].
  apply (StronglySorted_unique Z.le).
  - apply StronglySorted_fmap with (R1 := IDB.key_le);
      [by intros p q|apply IDBFacts.sorted_records_sorted].
  - apply StronglySorted_fmap with (R1 := IDB.key_le);
      [by intros p q|apply IDBFacts.sorted_records_sorted].
  - apply NoDup_Permutation.
    + unfold IDB.sorted_records. rewrite merge_sort_Permutation.
      apply NoDup_fst_map_to_list.
    + unfold IDB.sorted_records. rewrite merge_sort_Permutation.
      apply NoDup_fst_map_to_list.
    + intros k. rewrite !list_elem_of_fmap. split.
      * intros ([j x] & -> & Hx%IDBFacts.sorted_records_elem_of). simpl in *.
        apply lookup_insert_Some in Hx as [[<- _]|[_ Hx]].
        -- exists (Entry.id entry, old). split; [done|].
           by apply IDBFacts.sorted_records_elem_of.
        -- exists (j, x). split; [done|]. by apply IDBFacts.sorted_records_elem_of.
      * intros ([j x] & -> & Hx%IDBFacts.sorted_records_elem_of). simpl.
        destruct (decide (Entry.id entry = j)) as [<-|Hne].
        -- exists (Entry.id entry, entry). split; [done|].
           apply IDBFacts.sorted_records_elem_of. simpl. apply lookup_insert_eq.
        -- exists (j, x). split; [done|].
           apply IDBFacts.sorted_records_elem_of. simpl.
           by rewrite lookup_insert_ne.
Qed.

(** X19: an edit of an entry that is in the store replaces it in place:
    the list keeps its length and shows the same ids in the same order,
    the key generator does not move, and the edit marker is cleared. *)
Theorem edit_replaces_in_place (e : Entry.t) (now : Date) (f : TimeForm.state)
    (w : World) (Hwf : IDB.wf (db w))
    (Hin : is_Some (IDB.records (db w) !! Entry.id e)) :
  let w' := (submit now f (handleEditEntry e w)).2 in
  Entry.id <$> entries (app w') = (IDB.sorted_records (db w)).*1
  ∧ length (entries (app w')) = size (IDB.records (db w))
  ∧ IDB.keyGenerator (db w') = IDB.keyGenerator (db w)
  ∧ editingEntry (app w') = None.
Proof.
  intros w'.
  assert (w' = loadEntries
                 (mk_world (updateEntry (with_id (Entry.id e) (TimeForm.entry_of now f))
                              (db w))
                           (setEditingEntry None (app (handleEditEntry e w))))) as ->.
  { unfold w', submit, TimeForm.handleSubmit. cbn [snd].
    by rewrite (handleAddEntry_update _ (handleEditEntry e w) e). }
  set (stamped := with_id (Entry.id e) (TimeForm.entry_of now f)).
  destruct (loadEntries_spec
              (mk_world (updateEntry stamped (db w))
                 (setEditingEntry None (app (handleEditEntry e w)))))
    as (Hdb & Hlist & Hedit).
  assert (Entry.id <$> (IDB.sorted_records (IDB.put stamped (db w))).*2
          = (IDB.sorted_records (db w)).*1) as Hids.
  { rewrite sorted_records_ids by by apply IDBFacts.wf_put.
    by apply sorted_keys_insert_existing. }
  split_and!.
  - by rewrite Hlist.
  - rewrite <-(length_fmap Entry.id), Hlist. cbn [db]. unfold updateEntry.
    rewrite Hids, length_fmap.
    unfold IDB.sorted_records. rewrite merge_sort_Permutation.
    apply length_map_to_list.
  - rewrite Hdb. simpl. rewrite decide_False; [done|].
    destruct Hin as [old Hold]. apply Hwf in Hold. lia.
  - by rewrite Hedit.
Qed.

Lemma edit_replaces_in_place_witness :
  IDB.wf (db one_entry_world)
  ∧ is_Some (IDB.records (db one_entry_world) !! Entry.id first_entry)
  ∧ Entry.id
    <$> entries (app (submit jan1_2025 two_and_a_half
                        (handleEditEntry first_entry one_entry_world)).2)
    = [1].
Proof.
  assert (IDB.wf (db one_entry_world)) as Hw
    by (apply wf_by_evaluation; by vm_compute).
  assert (is_Some (IDB.records (db one_entry_world) !! Entry.id first_entry)) as Hin
    by (exists first_entry; by vm_compute).
  split_and!; [done..|].
  destruct (edit_replaces_in_place first_entry jan1_2025 two_and_a_half
              one_entry_world Hw Hin) as (-> & _).
  by vm_compute.
Defined.
